(** * The Telegram HTML formatters of content-bot

    A shallow embedding of [src/content_bot/bot/formatters.py]: the sanitizer
    [sanitize_telegram_html], the validator [validate_telegram_html], the
    truncator [truncate_html], the dispatcher [format_process_report] and the
    chunker [split_html_report], followed by the properties the specification
    states about them.

    A Python [str] is a sequence of Unicode code points: it is modelled as a
    list of code points ([N]).  [len] is [length], slicing is [take]/[drop],
    [+] is [++].  A [dict] is a [gmap] with [string] keys, the set
    [ALLOWED_TAGS] a [gset]. *)

From Stdlib Require Import ZArith NArith List Bool Lia String Ascii DecimalString.
From stdpp Require Import gmap strings list.

Abbreviation str := (list N) (only parsing).

(** A literal of the source, written as a Rocq string (ASCII only). *)
Definition py (s : string) : str := map N_of_ascii (list_ascii_of_string s).

(** ** Characters and character classes *)

Module Char.

Definition LT : N := 60.     (* < *)
Definition GT : N := 62.     (* > *)
Definition AMP : N := 38.    (* & *)
Definition SLASH : N := 47.  (* / *)
Definition SEMI : N := 59.   (* ; *)
Definition HASH : N := 35.   (* # *)
Definition LOWER_X : N := 120. (* x *)
Definition DQUOTE : N := 34.
Definition SQUOTE : N := 39.
Definition SPACE : N := 32.

Definition between (lo hi c : N) : bool := (lo <=? c)%N && (c <=? hi)%N.

(** [[a-zA-Z]]: the pattern is compiled without [re.IGNORECASE], so the
    class is the 52 ASCII letters. *)
Definition is_upper (c : N) : bool := between 65 90 c.
Definition is_lower (c : N) : bool := between 97 122 c.
Definition is_letter (c : N) : bool := is_lower c || is_upper c.

(** [[0-9a-fA-F]] *)
Definition is_hex (c : N) : bool :=
  between 48 57 c || between 97 102 c || between 65 70 c.

(** [\d] in a [str] pattern is every Unicode decimal digit (category Nd),
    not only 0-9.  Nd comes in runs of ten consecutive code points; these
    are the first code points of the runs (Unicode 14, as in CPython 3.11;
    the run at 0x1D7CE is fifty long and is listed as five runs). *)
Definition DECIMAL_ZEROS : list N :=
  [ 0x30; 0x660; 0x6f0; 0x7c0; 0x966; 0x9e6; 0xa66; 0xae6; 0xb66; 0xbe6;
    0xc66; 0xce6; 0xd66; 0xde6; 0xe50; 0xed0; 0xf20; 0x1040; 0x1090;
    0x17e0; 0x1810; 0x1946; 0x19d0; 0x1a80; 0x1a90; 0x1b50; 0x1bb0;
    0x1c40; 0x1c50; 0xa620; 0xa8d0; 0xa900; 0xa9d0; 0xa9f0; 0xaa50;
    0xabf0; 0xff10; 0x104a0; 0x10d30; 0x11066; 0x110f0; 0x11136; 0x111d0;
    0x112f0; 0x11450; 0x114d0; 0x11650; 0x116c0; 0x11730; 0x118e0;
    0x11950; 0x11c50; 0x11d50; 0x11da0; 0x16a60; 0x16ac0; 0x16b50;
    0x1d7ce; 0x1d7d8; 0x1d7e2; 0x1d7ec; 0x1d7f6;
    0x1e140; 0x1e2f0; 0x1e950; 0x1fbf0 ]%N.

Definition is_decimal (c : N) : bool :=
  existsb (fun z => (z <=? c)%N && (c <? z + 10)%N) DECIMAL_ZEROS.

(** [\s] in a [str] pattern, and the characters [str.strip()] removes:
    both are CPython's [Py_UNICODE_ISSPACE]. *)
Definition is_space (c : N) : bool :=
  between 0x09 0x0d c || between 0x1c 0x20 c || (c =? 0x85)%N
  || (c =? 0xa0)%N || (c =? 0x1680)%N || between 0x2000 0x200a c
  || (c =? 0x2028)%N || (c =? 0x2029)%N || (c =? 0x202f)%N
  || (c =? 0x205f)%N || (c =? 0x3000)%N.

(** [str.lower()] on the ASCII letters, which is all it is applied to
    here (the tag name matched by [[a-zA-Z]+]). *)
Definition lower_char (c : N) : N := if is_upper c then (c + 32)%N else c.

End Char.
Import Char.

Definition lower (s : str) : str := map lower_char s.

Arguments is_decimal : simpl never.
Arguments is_space : simpl never.

(** The longest prefix of characters in a class, and what follows it: how a
    greedy [[...]*] or [[...]+] consumes its input. *)
Fixpoint span (p : N -> bool) (s : str) : str * str :=
  match s with
  | c :: s' =>
      if p c then let '(a, b) := span p s' in (c :: a, b) else ([], s)
  | [] => ([], [])
  end.

(** [s.startswith(p)], returning the rest. *)
Fixpoint strip_prefix (p s : str) : option str :=
  match p, s with
  | [], _ => Some s
  | a :: p', b :: s' => if (a =? b)%N then strip_prefix p' s' else None
  | _ :: _, [] => None
  end.

(** ** The two regular expressions *)

(** A match of the tag pattern: [<], an optional [/], one or more letters
    [[a-zA-Z]+], an optional group made of one [\s] and any run of [[^>]],
    then [>].  [whole] is [group(0)], [slash] the text matched by [/?] and [name] the
    letters.  (The sanitizer's pattern leaves the slash ungrouped, so its
    [group(1)] is [name]; the validator's and the truncator's have
    [group(1) = slash] and [group(2) = name].) *)
Record tag_match := TagMatch { whole : str; slash : str; name : str }.

(** [/?]: the slash when there is one, and the text after it. *)
Definition optional_slash (s : str) : str * str :=
  match s with
  | d :: s' => if (d =? SLASH)%N then ([SLASH], s') else ([], s)
  | [] => ([], s)
  end.

(** [re.match(tag_pattern, s)]: the match anchored at the start of [s] and
    the text after it.  Every quantifier of the pattern is followed by a
    character outside its class ([/?] by a letter, [[a-zA-Z]+] by [\s] or
    [>], [[^>]*] by [>]), so giving back characters never helps and the
    greedy match is the only candidate. *)
Definition match_tag (s : str) : option (tag_match * str) :=
  match s with
  | c :: s1 =>
      if (c =? LT)%N then
        let '(sl, s2) := optional_slash s1 in
        let '(nm, s3) := span is_letter s2 in
        match nm, s3 with
        | [], _ => None
        | _ :: _, d :: s4 =>
            if (d =? GT)%N then
              Some (TagMatch (LT :: sl ++ nm ++ [GT]) sl nm, s4)
            else if is_space d then
              let '(attrs, s5) := span (fun e => negb (e =? GT)%N) s4 in
              match s5 with
              | _ :: s6 =>
                  Some (TagMatch (LT :: sl ++ nm ++ d :: attrs ++ [GT]) sl nm, s6)
              | [] => None
              end
            else None
        | _ :: _, [] => None
        end
      else None
  | [] => None
  end.

(** The alternatives of [(amp|lt|gt|quot|#\d+|#x[0-9a-fA-F]+)], each
    returning the text it matched and the rest. *)
Definition alt_literal (lit : str) (s : str) : option (str * str) :=
  match strip_prefix lit s with
  | Some rest => Some (lit, rest)
  | None => None
  end.

Definition alt_decimal (s : str) : option (str * str) :=
  match s with
  | c :: s1 =>
      if (c =? HASH)%N then
        match span is_decimal s1 with
        | ([], _) => None
        | (ds, rest) => Some (HASH :: ds, rest)
        end
      else None
  | [] => None
  end.

Definition alt_hex (s : str) : option (str * str) :=
  match s with
  | c :: d :: s1 =>
      if (c =? HASH)%N && (d =? LOWER_X)%N then
        match span is_hex s1 with
        | ([], _) => None
        | (hs, rest) => Some (HASH :: LOWER_X :: hs, rest)
        end
      else None
  | _ => None
  end.

Definition ENTITY_ALTERNATIVES : list (str -> option (str * str)) :=
  [ alt_literal (py "amp"); alt_literal (py "lt"); alt_literal (py "gt");
    alt_literal (py "quot"); alt_decimal; alt_hex ].

(** Ordered alternation followed by [;]: the first alternative that matches
    and is followed by a semicolon wins.  ([\d+] and [[0-9a-fA-F]+] are
    followed by [;], which is in neither class: here too the greedy run is
    the only candidate.) *)
Fixpoint first_entity (alts : list (str -> option (str * str))) (s : str)
  : option (str * str) :=
  match alts with
  | alt :: alts' =>
      match alt s with
      | Some (body, c :: rest) =>
          if (c =? SEMI)%N then Some (AMP :: body ++ [SEMI], rest)
          else first_entity alts' s
      | _ => first_entity alts' s
      end
  | [] => None
  end.

(** [re.match(r"&(amp|lt|gt|quot|#\d+|#x[0-9a-fA-F]+);", s)]: [group(0)]
    and the text after it. *)
Definition match_entity (s : str) : option (str * str) :=
  match s with
  | c :: s1 => if (c =? AMP)%N then first_entity ENTITY_ALTERNATIVES s1 else None
  | [] => None
  end.

(** ** [sanitize_telegram_html] *)

Definition ALLOWED_TAGS : gset (list N) :=
  {[ py "b"; py "i"; py "code"; py "pre"; py "a"; py "s"; py "u" ]}.

Definition ESC_LT : str := Eval cbv in py "&lt;".
Definition ESC_GT : str := Eval cbv in py "&gt;".
Definition ESC_AMP : str := Eval cbv in py "&amp;".

(** The [while i < len(text)] loop, on the unread text [text[i:]]; it
    returns the pieces appended to [result].  Every iteration advances [i]
    by at least one, so [len(text)] iterations are enough: [fuel] counts
    them. *)
Fixpoint sanitize_loop (fuel : nat) (text : str) : list str :=
  match fuel, text with
  | S fuel', c :: text1 =>
      if (c =? LT)%N then
        match match_tag text with
        | Some (tag_match, rest) =>
            let tag_name := lower (name tag_match) in
            if bool_decide (tag_name ∈ ALLOWED_TAGS) then
              whole tag_match :: sanitize_loop fuel' rest
            else ESC_LT :: sanitize_loop fuel' text1
        | None => ESC_LT :: sanitize_loop fuel' text1
        end
      else if (c =? GT)%N then ESC_GT :: sanitize_loop fuel' text1
      else if (c =? AMP)%N then
        match match_entity text with
        | Some (entity, rest) => entity :: sanitize_loop fuel' rest
        | None => ESC_AMP :: sanitize_loop fuel' text1
        end
      else [c] :: sanitize_loop fuel' text1
  | _, _ => []
  end.

Definition sanitize_pieces (text : str) : list str :=
  sanitize_loop (length text) text.

Definition sanitize_telegram_html (text : str) : str :=
  match text with
  | [] => []
  | _ => concat (sanitize_pieces text)
  end.

(** ** [tag_pattern.finditer] *)

(** The successive non-overlapping matches of the tag pattern, scanning from
    the left: a match is searched at the current position; after a match the
    scan resumes at its end, otherwise one character further.  The pattern
    matches no empty text, so [len(text)] steps are enough. *)
Fixpoint finditer_loop (fuel : nat) (text : str) : list tag_match :=
  match fuel, text with
  | S fuel', _ :: text1 =>
      match match_tag text with
      | Some (m, rest) => m :: finditer_loop fuel' rest
      | None => finditer_loop fuel' text1
      end
  | _, _ => []
  end.

Definition finditer (text : str) : list tag_match :=
  finditer_loop (length text) text.

(** ** [validate_telegram_html] *)

(** [match.group(1) == "/"] *)
Definition is_closing (m : tag_match) : bool := bool_decide (slash m = [SLASH]).

(** The [for match in ...] loop.  [tag_stack] is the Python list: [append]
    adds at the end, [tag_stack[-1]] is [last] and [pop()] is [removelast]. *)
Fixpoint validate_loop (matches : list tag_match) (tag_stack : list str) : bool :=
  match matches with
  | m :: matches' =>
      let tag_name := lower (name m) in
      if negb (bool_decide (tag_name ∈ ALLOWED_TAGS)) then
        validate_loop matches' tag_stack
      else if is_closing m then
        if bool_decide (tag_stack = [])
           || negb (bool_decide (last tag_stack = Some tag_name))
        then false
        else validate_loop matches' (removelast tag_stack)
      else validate_loop matches' (tag_stack ++ [tag_name])
  | [] => bool_decide (length tag_stack = 0)
  end.

Definition validate_telegram_html (text : str) : bool :=
  validate_loop (finditer text) [].

(** ** [truncate_html] *)

(** How Python clips the end of a slice [s[:e]] or of a search range
    [s.rfind(c, 0, e)]: a negative end counts from the end of the string, and
    the result is kept within [0 .. len(s)]. *)
Definition slice_end (len : nat) (e : Z) : nat :=
  let e1 := if (e <? 0)%Z then (e + Z.of_nat len)%Z else e in
  let e2 := if (e1 <? 0)%Z then 0%Z else e1 in
  Nat.min len (Z.to_nat e2).

(** [s.rfind(c)] for a single character: the highest index of [c], or -1. *)
Fixpoint rfind_char (c : N) (s : str) : Z :=
  match s with
  | d :: s' =>
      let r := rfind_char c s' in
      if (0 <=? r)%Z then (r + 1)%Z
      else if (d =? c)%N then 0%Z else (-1)%Z
  | [] => (-1)%Z
  end.

(** [text.rfind(c, 0, e)] *)
Definition rfind (c : N) (text : str) (e : Z) : Z :=
  rfind_char c (take (slice_end (length text) e) text).

(** The second loop of [truncate_html]: unlike the validator it skips a
    closing tag that does not match the innermost open tag. *)
Fixpoint open_tags_loop (matches : list tag_match) (open_tags : list str) : list str :=
  match matches with
  | m :: matches' =>
      let tag_name := lower (name m) in
      if negb (bool_decide (tag_name ∈ ALLOWED_TAGS)) then
        open_tags_loop matches' open_tags
      else if is_closing m && negb (bool_decide (open_tags = []))
              && bool_decide (last open_tags = Some tag_name) then
        open_tags_loop matches' (removelast open_tags)
      else if negb (is_closing m) then
        open_tags_loop matches' (open_tags ++ [tag_name])
      else open_tags_loop matches' open_tags
  | [] => open_tags
  end.

Definition ELLIPSIS : str := Eval cbv in py "...".

(** [f"</{tag}>"] *)
Definition closing_tag (tag : str) : str := LT :: SLASH :: tag ++ [GT].

(** The text kept by the cut: [text[:cut_point]] after the adjustment of
    [cut_point]. *)
Definition truncated_prefix (text : str) (max_length : Z) : str :=
  let cut_point := (max_length - 50)%Z in
  let last_open := rfind LT text cut_point in
  let last_close := rfind GT text cut_point in
  let cut_point := if (last_open >? last_close)%Z then last_open else cut_point in
  take (slice_end (length text) cut_point) text.

Definition truncate_html (text : str) (max_length : Z) : str :=
  if (Z.of_nat (length text) <=? max_length)%Z then text
  else
    let truncated := truncated_prefix text max_length in
    let open_tags := open_tags_loop (finditer truncated) [] in
    let closing_tags := concat (map closing_tag (rev open_tags)) in
    truncated ++ ELLIPSIS ++ closing_tags.

(** ** [format_process_report] *)

(** The values a report dict holds: text, or a count such as
    [processed_entries]. *)
Inductive pyval :=
| PyStr (s : str)
| PyInt (z : Z)
| PyNone.

(** [str(v)] *)
Definition py_str (v : pyval) : str :=
  match v with
  | PyStr s => s
  | PyInt z => py (NilZero.string_of_int (Z.to_int z))
  | PyNone => py "None"
  end.

(** [s.replace(c, r)] for a single character [c]. *)
Definition replace_char (c : N) (r : str) (s : str) : str :=
  concat (map (fun d => if (d =? c)%N then r else [d]) s).

(** [html.escape(s)] with its default [quote=True]: five successive
    replacements, the ampersand first. *)
Definition html_escape (s : str) : str :=
  let s := replace_char AMP (py "&amp;") s in
  let s := replace_char LT (py "&lt;") s in
  let s := replace_char GT (py "&gt;") s in
  let s := replace_char DQUOTE (py "&quot;") s in
  let s := replace_char SQUOTE (py "&#x27;") s in
  s.

(** [sanitize_telegram_html] called on a value of the dict: a falsy value
    takes the [if not text: return ""] exit, a non-empty [str] runs the loop
    and a non-zero number raises at [len(text)] ([None] here). *)
Definition sanitize_value (text : pyval) : option str :=
  match text with
  | PyStr s => Some (sanitize_telegram_html s)
  | PyInt z => if (z =? 0)%Z then Some [] else None
  | PyNone => Some []
  end.

(** [html.escape] reads its argument with [str.replace]: it raises on a value
    that is not a [str]. *)
Definition html_escape_value (v : pyval) : option str :=
  match v with
  | PyStr s => Some (html_escape s)
  | _ => None
  end.

(** The result is [None] when the call raises. *)
Definition format_process_report (report : gmap string pyval) : option str :=
  if bool_decide ("error"%string ∈ dom report) then
    error ← report !! "error"%string;
    let error_msg := html_escape (py_str error) in
    Some (py "Error: <b>" ++ error_msg ++ py "</b>")
  else if bool_decide ("report"%string ∈ dom report) then
    raw_report ← report !! "report"%string;
    sanitized ← sanitize_value raw_report;
    if negb (validate_telegram_html sanitized) then html_escape_value raw_report
    else Some (truncate_html sanitized 4096)
  else Some (py "Done").

(** ** [split_html_report] *)

Definition SEED_MARKER : str := Eval cbv in py "<b>Seed #".

Definition at_marker (s : str) : bool :=
  match strip_prefix SEED_MARKER s with Some _ => true | None => false end.

(** The pieces of [s], cut before every occurrence of the marker that starts
    after the first character of [s]. *)
Fixpoint split_inner (s : str) : list str :=
  match s with
  | c :: s' =>
      if at_marker s' then [c] :: split_inner s'
      else
        match split_inner s' with
        | piece :: pieces => (c :: piece) :: pieces
        | [] => [[c]]
        end
  | [] => [[]]
  end.

(** [re.split(r"(?=<b>Seed #)", text)]: the lookahead matches the empty text
    before every occurrence of the marker, and the text is cut at each of
    them; an occurrence at the very start gives an empty first piece. *)
Definition re_split_seed (text : str) : list str :=
  if at_marker text then [] :: split_inner text else split_inner text.

(** [s.strip()] *)
Fixpoint lstrip (s : str) : str :=
  match s with
  | c :: s' => if is_space c then lstrip s' else s
  | [] => []
  end.

Definition rstrip (s : str) : str := rev (lstrip (rev s)).

Definition strip (s : str) : str := rstrip (lstrip s).

(** The [for chunk in chunks] loop, threading [current] and [parts]. *)
Fixpoint accumulate (chunks : list str) (max_length : Z)
    (current : str) (parts : list str) : str * list str :=
  match chunks with
  | chunk :: chunks' =>
      match chunk with
      | [] => accumulate chunks' max_length current parts
      | _ :: _ =>
          if (Z.of_nat (length current) + Z.of_nat (length chunk) <=? max_length)%Z
          then accumulate chunks' max_length (current ++ chunk) parts
          else
            let parts :=
              match current with
              | [] => parts
              | _ :: _ => parts ++ [strip current]
              end in
            accumulate chunks' max_length chunk parts
      end
  | [] => (current, parts)
  end.

(** [parts] as it stands before the last loop. *)
Definition split_parts (text : str) (max_length : Z) : list str :=
  let chunks := re_split_seed text in
  let '(current, parts) := accumulate chunks max_length [] [] in
  match current with
  | [] => parts
  | _ :: _ => parts ++ [strip current]
  end.

Definition split_html_report (text : str) (max_length : Z) : list str :=
  if (Z.of_nat (length text) <=? max_length)%Z then [text]
  else
    let parts := split_parts text max_length in
    match parts with
    | [] => [truncate_html text max_length]
    | _ :: _ =>
        map (fun part =>
               if (Z.of_nat (length part) <=? max_length)%Z then part
               else truncate_html part max_length)
            parts
    end.

(** * The handlers

    [bot/handlers]: what [cmd_plan], [cmd_content], [_handle_plan_edit] and
    the callbacks do with a report of the processor. *)

(** ** Sending a report *)

(** [formatted = format_process_report(report)], then
    [parts = split_html_report(formatted)] with the default budget of 4000:
    [parts[0]] replaces the status message and each of [parts[1:]] is sent as
    a message of its own.  The result is the pair of the two, [None] when one
    of the calls or [parts[0]] raises. *)
Definition report_messages (report : gmap string pyval) : option (str * list str) :=
  formatted ← format_process_report report;
  let parts := split_html_report formatted 4000 in
  match parts with
  | first :: rest => Some (first, rest)
  | [] => None
  end.

(** * The Google Docs synchronizer

    [services/gdocs.py]: the file name of a synchronized document. *)

(** ** [_slugify] *)

Module Slug.

Definition DASH : N := 45.
Definition UNDERSCORE : N := 95.

(** [re.sub(r"(class)+", repl, s)] for a character class [cls]: every maximal
    run of characters of the class is replaced by [repl]; [in_run] tells
    whether the character before belongs to a run already replaced. *)
Fixpoint sub_runs (cls : N -> bool) (repl : str) (in_run : bool) (s : str) : str :=
  match s with
  | c :: s' =>
      if cls c then (if in_run then [] else repl) ++ sub_runs cls repl true s'
      else c :: sub_runs cls repl false s'
  | [] => []
  end.

(** [s.strip(c)] for a single character [c]. *)
Fixpoint lstrip_char (c : N) (s : str) : str :=
  match s with
  | d :: s' => if (d =? c)%N then lstrip_char c s' else s
  | [] => []
  end.

Definition strip_char (c : N) (s : str) : str :=
  rev (lstrip_char c (rev (lstrip_char c s))).

Section Slugify.

(** The two Unicode tables of the interpreter that the function reads:
    [str.isalnum] for one character, which with the underscore makes [\w],
    and [str.lower]. *)
Variable isalnum : N -> bool.
Variable str_lower : str -> str.

(** [\w] *)
Definition is_word (c : N) : bool := isalnum c || (c =? UNDERSCORE)%N.

Definition _slugify (title : str) : str :=
  let slug := strip (str_lower title) in
  (* re.sub with the class [^\w\s-] and the empty replacement *)
  let slug := List.filter (fun c => is_word c || is_space c || (c =? DASH)%N) slug in
  (* re.sub(r"[\s_]+", "-", slug) *)
  let slug := sub_runs (fun c => is_space c || (c =? UNDERSCORE)%N) [DASH] false slug in
  (* re.sub(r"-+", "-", slug) *)
  let slug := sub_runs (fun c => (c =? DASH)%N) [DASH] false slug in
  strip_char DASH (take 80 slug).

End Slugify.

End Slug.

(** * The processor

    [services/processor.py]: the seeds the user has dismissed. *)

(** ** [dismiss_seeds] and the active seeds *)

(** A seed as [_extract_seed_titles] builds it. *)
Record seed := Seed {
  week : str;
  num : Z;
  title : str;
  full_text : str
}.

(** [f"{s['week']}:{s['num']}"] *)
Definition seed_key (s : seed) : str := week s ++ py ":" ++ py_str (PyInt (num s)).

(** The loop of [dismiss_seeds] over the set of dismissed keys. *)
Fixpoint dismiss_loop (seeds_to_dismiss : list seed) (dismissed : gset str) (count : Z)
  : gset str * Z :=
  match seeds_to_dismiss with
  | s :: seeds_to_dismiss' =>
      let key := seed_key s in
      if bool_decide (key ∉ dismissed)
      then dismiss_loop seeds_to_dismiss' (dismissed ∪ {[ key ]}) (count + 1)
      else dismiss_loop seeds_to_dismiss' dismissed count
  | [] => (dismissed, count)
  end.

(** [dismiss_seeds]: [dismissed] is the set [_load_dismissed] reads from
    [.dismissed.json]; the result is the set handed to [_save_dismissed], which
    writes it back to the file, and the count returned. *)
Definition dismiss_seeds (seeds_to_dismiss : list seed) (dismissed : gset str)
  : gset str * Z :=
  dismiss_loop seeds_to_dismiss dismissed 0.

(** [active_seeds] of [list_unpublished_seeds]: the seeds whose key is not
    in the set read from the file. *)
Definition active_seeds (all_seeds : list seed) (dismissed : gset str) : list seed :=
  List.filter (fun s => bool_decide (seed_key s ∉ dismissed)) all_seeds.

(** * The bot

    [bot/main.py]: who may use the bot. *)

(** ** [create_auth_middleware] *)

Module Auth.

(** The parts of the aiogram types and of the settings that the middleware
    reads.  [Message.from_user] is optional (it is missing for channel
    posts), [CallbackQuery.from_user] is not. *)
Record User := MkUser { id : Z }.

Record Message := MkMessage { from_user : option User }.

Record CallbackQuery := MkCallbackQuery { callback_from_user : User }.

Record Update := MkUpdate {
  message : option Message;
  callback_query : option CallbackQuery
}.

Record Settings := MkSettings {
  allow_all_users : bool;
  allowed_user_ids : list Z
}.

(** [auth_middleware]: [true] where it returns [await handler(event, data)],
    [false] where it returns [None] without calling the handler. *)
Definition auth_middleware (settings : Settings) (event : Update) : bool :=
  if allow_all_users settings then true
  else
    let user :=
      match message event with
      | Some m => from_user m
      | None =>
          match callback_query event with
          | Some q => Some (callback_from_user q)
          | None => None
          end
      end in
    if bool_decide (allowed_user_ids settings = []) then false
    else
      match user with
      | Some u => if bool_decide (id u ∉ allowed_user_ids settings) then false else true
      | None => true
      end.

End Auth.

(** ** The front matter of the saved files *)

Module FrontMatter.

Definition NEWLINE : N := 10.
Definition FENCE : str := Eval cbv in py "---".

(** The text [_save_content_seeds] and [_save_content_plan] write:
    [frontmatter + content], where [iso_date] is [isoformat()] of the date,
    [week_label] is [f"{year}-W{week:02d}"] and [type_name] is
    [content-seeds] or [content-plan]. *)
Definition saved_text (type_name iso_date week_label content : str) : str :=
  FENCE ++ [NEWLINE]
  ++ py "date: " ++ iso_date ++ [NEWLINE]
  ++ py "type: " ++ type_name ++ [NEWLINE]
  ++ py "week: " ++ week_label ++ [NEWLINE]
  ++ FENCE ++ [NEWLINE]
  ++ [NEWLINE]
  ++ content.

Definition seeds_text : str -> str -> str -> str := saved_text (py "content-seeds").
Definition plan_text : str -> str -> str -> str := saved_text (py "content-plan").

(** [s.startswith(prefix)] *)
Definition startswith (prefix s : str) : bool :=
  match strip_prefix prefix s with Some _ => true | None => false end.

(** [text.find(sub, start)] where [s] is [text[i:]]: the lowest index from
    [i] on at which [sub] starts, or -1. *)
Fixpoint find_at (sub s : str) (i : Z) : Z :=
  match strip_prefix sub s with
  | Some _ => i
  | None =>
      match s with
      | _ :: s' => find_at sub s' (i + 1)
      | [] => (-1)%Z
      end
  end.

Definition find (sub text : str) (start : nat) : Z :=
  if (start <=? length text)%nat then find_at sub (drop start text) (Z.of_nat start)
  else (-1)%Z.

(** The front matter taken off, as [_extract_seed_titles] and
    [get_current_plan] do it on the text of a file. *)
Definition strip_frontmatter (body : str) : str :=
  if startswith FENCE body then
    let end_ := find FENCE body 3 in
    if negb (end_ =? -1)%Z then strip (drop (Z.to_nat (end_ + 3)) body)
    else body
  else body.

End FrontMatter.

(** * Vocabulary of the properties *)

(** Re-association of concatenations to the right. *)
Ltac app_norm := repeat first [rewrite <- app_assoc | progress cbn [app]].

(** ** Tags, entities and pieces of sanitized text *)

(** The text of a tag, from its parts. *)
Definition tag_text (sl nm attrs : str) : str := LT :: sl ++ nm ++ attrs ++ [GT].

(** The parts the pattern allows: an optional slash, a non-empty name of
    letters, and either nothing or a white space followed by characters other
    than [>]. *)
Record tag_parts (sl nm attrs : str) : Prop := TagParts {
  parts_slash : sl = [] \/ sl = [SLASH];
  parts_name : nm <> [];
  parts_letters : Forall (fun c => is_letter c = true) nm;
  parts_attrs :
    attrs = [] \/
    exists w a, attrs = w :: a /\ is_space w = true
                /\ Forall (fun c => negb (c =? GT)%N = true) a
}.

(** [amp], [lt], [gt] and [quot]. *)
Definition NAMED_ENTITIES : list str := [py "amp"; py "lt"; py "gt"; py "quot"].

(** The recognized character entities: the four named ones and the numeric
    references, decimal ([&#...;]) or hexadecimal ([&#x...;]). *)
Inductive recognized_entity : str -> Prop :=
| entity_named nm :
    In nm NAMED_ENTITIES -> recognized_entity (AMP :: nm ++ [SEMI])
| entity_decimal ds :
    ds <> [] -> Forall (fun c => is_decimal c = true) ds ->
    recognized_entity (AMP :: HASH :: ds ++ [SEMI])
| entity_hex hs :
    hs <> [] -> Forall (fun c => is_hex c = true) hs ->
    recognized_entity (AMP :: HASH :: LOWER_X :: hs ++ [SEMI]).

(** A whitelisted tag: a tag of the allowed shape whose name, lowercased, is
    in [ALLOWED_TAGS]. *)
Definition whitelisted_tag (t : str) : Prop :=
  exists sl nm attrs,
    tag_parts sl nm attrs /\ lower nm ∈ ALLOWED_TAGS /\ t = tag_text sl nm attrs.

(** How a slice of the input (left) is rendered in the output (right): a
    whitelisted tag, a recognized entity and any other character are copied;
    a [<], [>] or [&] that is none of these is replaced by its escape. *)
Inductive sanitized_piece : str -> str -> Prop :=
| piece_tag t : whitelisted_tag t -> sanitized_piece t t
| piece_entity e : recognized_entity e -> sanitized_piece e e
| piece_plain c : c <> LT -> c <> GT -> c <> AMP -> sanitized_piece [c] [c]
| piece_escaped_lt : sanitized_piece [LT] ESC_LT
| piece_escaped_gt : sanitized_piece [GT] ESC_GT
| piece_escaped_amp : sanitized_piece [AMP] ESC_AMP.

(** What the output is made of: whitelisted tags, recognized entities, and
    characters other than [<], [>] and [&]. *)
Inductive safe_piece : str -> Prop :=
| safe_tag t : whitelisted_tag t -> safe_piece t
| safe_entity e : recognized_entity e -> safe_piece e
| safe_plain c : c <> LT -> c <> GT -> c <> AMP -> safe_piece [c].

(** ** Strict nesting, in the words of the specification *)

(** The tags the validator tracks, in the claim's words: the name of a
    whitelisted tag, opened or closed. *)
Inductive tag_event :=
| Open (tag : str)
| Close (tag : str).

(** The event of a match, if its tag is whitelisted. *)
Definition tracked_event (m : tag_match) : option tag_event :=
  let tag_name := lower (name m) in
  if bool_decide (tag_name ∈ ALLOWED_TAGS) then
    Some (if is_closing m then Close tag_name else Open tag_name)
  else None.

(** The events of the whitelisted tags among the matches; the other matches
    are ignored. *)
Fixpoint tracked_events (matches : list tag_match) : list tag_event :=
  match matches with
  | m :: matches' =>
      match tracked_event m with
      | Some e => e :: tracked_events matches'
      | None => tracked_events matches'
      end
  | [] => []
  end.

(** Strict last-in first-out nesting, the top of the stack first: an open
    tag is pushed; a close tag must find its own name on top, which it pops,
    and fails at once otherwise; at the end the stack must be empty. *)
Fixpoint lifo_check (events : list tag_event) (stack : list str) : bool :=
  match events with
  | Open tag :: events' => lifo_check events' (tag :: stack)
  | Close tag :: events' =>
      match stack with
      | top :: stack' =>
          if bool_decide (top = tag) then lifo_check events' stack' else false
      | [] => false
      end
  | [] => match stack with [] => true | _ :: _ => false end
  end.

(** ** Segments against the text they come from *)

(** [seg] is [part] without some white space at its two ends. *)
Definition trimmed_of (part seg : str) : Prop :=
  exists l r,
    part = l ++ seg ++ r
    /\ Forall (fun c => is_space c = true) l
    /\ Forall (fun c => is_space c = true) r.

(** The segments reproduce [x] in order, up to white space trimmed at the
    ends of the segments: [x] is cut into consecutive parts, one for each
    segment, and each segment is its part trimmed. *)
Definition reconstructs (x : str) (segments : list str) : Prop :=
  exists parts, concat parts = x /\ Forall2 trimmed_of parts segments.

(** [len(s) <= max_length] *)
Definition within (max_length : Z) (s : str) : Prop :=
  (Z.of_nat (length s) <= max_length)%Z.

(** ** Angle brackets and the stack of open tags *)

(** Every [<] of the text has a [>] after it: no tag is left unfinished at
    the end of the text. *)
Fixpoint closed_angles (s : str) : bool :=
  match s with
  | c :: s' =>
      (if (c =? LT)%N then existsb (N.eqb GT) s' else true) && closed_angles s'
  | [] => true
  end.

(** The validator's loop, keeping the stack it ends with: [None] where the
    validator returns [False] from inside the loop. *)
Fixpoint stack_run (matches : list tag_match) (tag_stack : list str)
  : option (list str) :=
  match matches with
  | m :: matches' =>
      let tag_name := lower (name m) in
      if negb (bool_decide (tag_name ∈ ALLOWED_TAGS)) then
        stack_run matches' tag_stack
      else if is_closing m then
        if bool_decide (tag_stack = [])
           || negb (bool_decide (last tag_stack = Some tag_name))
        then None
        else stack_run matches' (removelast tag_stack)
      else stack_run matches' (tag_stack ++ [tag_name])
  | [] => Some tag_stack
  end.

(** The match of a closing tag as the truncator writes it. *)
Definition closing_match (tag : str) : tag_match :=
  TagMatch (closing_tag tag) [SLASH] tag.

(** No [<] stands between a [<] and the next [>]; [inside] tells whether a
    [<] is waiting for its [>]. *)
Fixpoint angles_alternate (inside : bool) (s : str) : bool :=
  match s with
  | c :: s' =>
      if (c =? LT)%N then negb inside && angles_alternate true s'
      else if (c =? GT)%N then angles_alternate false s'
      else angles_alternate inside s'
  | [] => true
  end.

Definition well_bracketed (s : str) : bool := angles_alternate false s.

(** A self-contained text: it passes the validator, leaves no tag
    unfinished, and has no [<] between a [<] and the next [>]. *)
Definition self_contained (s : str) : Prop :=
  validate_telegram_html s = true
  /\ closed_angles s = true
  /\ well_bracketed s = true.

(** ** The truncator's cut *)

(** The tags open where the truncator cuts: [open_tags] at the end of its
    loop. *)
Definition open_at_cut (text : str) (max_length : Z) : list str :=
  open_tags_loop (finditer (truncated_prefix text max_length)) [].

(** ** Pieces and cut points *)

(** The number of non-empty strings of a list. *)
Fixpoint nonempty_count (l : list str) : nat :=
  match l with
  | [] :: l' => nonempty_count l'
  | (_ :: _) :: l' => S (nonempty_count l')
  | [] => 0
  end.

(** The positions at which a text is cut into the given pieces: the
    lengths of the proper prefixes of the list of pieces. *)
Fixpoint cut_points (pieces : list str) : list nat :=
  match pieces with
  | p :: ((_ :: _) as rest) => length p :: map (Nat.add (length p)) (cut_points rest)
  | _ => []
  end.

(** [text.count("<")] *)
Definition count_lt (s : str) : nat := length (List.filter (N.eqb LT) s).

(** The seed marker starts nowhere in the text. *)
Definition marker_free (s : str) : Prop := forall k, at_marker (drop k s) = false.

(** A message that can be sent as it is: it passes the validator and has at
    most 4000 characters. *)
Definition sendable (message : str) : Prop :=
  validate_telegram_html message = true /\ within 4000 message.

(** No two dashes in a row. *)
Fixpoint single_dashes (s : str) : bool :=
  match s with
  | c :: s' =>
      negb ((c =? Slug.DASH)%N
            && match s' with d :: _ => (d =? Slug.DASH)%N | [] => false end)
      && single_dashes s'
  | [] => true
  end.

(** [sub in s] *)
Fixpoint contains (sub s : str) : bool :=
  match strip_prefix sub s with
  | Some _ => true
  | None =>
      match s with
      | _ :: s' => contains sub s'
      | [] => false
      end
  end.

(** A text as the truncator leaves it under the budget [max_length]: a kept
    text of at most [max_length - 50] characters, the ellipsis, and the
    closing tags of at most [limit] whitelisted tags, seven characters each
    at most.  Only the closing tags can take it over the budget. *)
Definition cut_and_closed (max_length : Z) (limit : nat) (seg : str) : Prop :=
  exists kept tags,
    seg = kept ++ ELLIPSIS ++ concat (map closing_tag tags)
    /\ within (max_length - 50) kept
    /\ Forall (fun tag => tag ∈ ALLOWED_TAGS) tags
    /\ length tags <= limit
    /\ (Z.of_nat (length seg) <= max_length - 47 + 7 * Z.of_nat (length tags))%Z.

(** ** Valid character references *)

(** [[0-9]] *)
Definition is_ascii_digit (c : N) : bool := between 48 57 c.

(** A valid character reference, as HTML and the specification have it:
    one of the four named entities, [&#] with ASCII decimal digits, or [&#x]
    with hexadecimal digits, up to the semicolon. *)
Inductive valid_reference : str -> Prop :=
| reference_named nm :
    In nm NAMED_ENTITIES -> valid_reference (AMP :: nm ++ [SEMI])
| reference_decimal ds :
    ds <> [] -> Forall (fun c => is_ascii_digit c = true) ds ->
    valid_reference (AMP :: HASH :: ds ++ [SEMI])
| reference_hex hs :
    hs <> [] -> Forall (fun c => is_hex c = true) hs ->
    valid_reference (AMP :: HASH :: LOWER_X :: hs ++ [SEMI]).

(** What the claim of escaping totality allows in the output: whitelisted
    tags, valid character references, and characters other than [<], [>]
    and [&]. *)
Inductive valid_piece : str -> Prop :=
| valid_tag t : whitelisted_tag t -> valid_piece t
| valid_entity e : valid_reference e -> valid_piece e
| valid_plain c : c <> LT -> c <> GT -> c <> AMP -> valid_piece [c].

(** Every decimal digit of the text is one of [0-9]. *)
Definition ascii_digits_only (s : str) : bool :=
  forallb (fun c => negb (is_decimal c) || is_ascii_digit c) s.

(** * Properties *)

(** ** Scenarios of the specification *)

Example sanitize_scenario :
  sanitize_telegram_html (py "Hello <b>world</b> <script>evil</script> & <3")
  = py "Hello <b>world</b> &lt;script&gt;evil&lt;/script&gt; &amp; &lt;3".
Proof. vm_compute. reflexivity. Qed.

Example sanitize_entities :
  sanitize_telegram_html (py "&amp; &#38; &#x26; &#; &#x; &ampx <a href=x>y</a> <A >")
  = py "&amp; &#38; &#x26; &amp;#; &amp;#x; &amp;ampx <a href=x>y</a> <A >".
Proof. vm_compute. reflexivity. Qed.

Example validate_nested : validate_telegram_html (py "<b>a<i>b</i></b>") = true.
Proof. vm_compute. reflexivity. Qed.

Example validate_crossing : validate_telegram_html (py "<b>a<i>b</b></i>") = false.
Proof. vm_compute. reflexivity. Qed.

Example truncate_scenario :
  truncate_html (py "<b>" ++ repeat 120%N 5000 ++ py "</b>") 100
  = py "<b>" ++ repeat 120%N 47 ++ py "...</b>".
Proof. vm_compute. reflexivity. Qed.

Example split_scenario :
  let record := py "<b>Seed #1</b>" ++ repeat 120%N 1486 in
  length record = 1500
  /\ split_html_report (record ++ record ++ record) 4000 = [record ++ record; record].
Proof. split; vm_compute; reflexivity. Qed.

Example re_split_seed_ex :
  re_split_seed (py "pre <b>Seed #1 a<b>Seed #2<b>Seed #")
  = [py "pre "; py "<b>Seed #1 a"; py "<b>Seed #2"; py "<b>Seed #"].
Proof. vm_compute. reflexivity. Qed.

Example re_split_seed_start :
  re_split_seed (py "<b>Seed #1 a<b>Seed #2") = [[]; py "<b>Seed #1 a"; py "<b>Seed #2"].
Proof. vm_compute. reflexivity. Qed.

(** ** Greedy runs *)

Section Span.
Variable p : N -> bool.

Lemma span_app s a b : span p s = (a, b) -> s = a ++ b.
Proof.
  revert a b. induction s as [|c s IH]; intros a b; simpl.
  - intros [= <- <-]. reflexivity.
  - destruct (p c).
    + destruct (span p s) as [a' b']. intros [= <- <-].
      simpl. f_equal. apply IH. reflexivity.
    + intros [= <- <-]. reflexivity.
Qed.

Lemma span_all s a b : span p s = (a, b) -> Forall (fun c => p c = true) a.
Proof.
  revert a b. induction s as [|c s IH]; intros a b; simpl.
  - intros [= <- <-]. constructor.
  - destruct (p c) eqn:Hc.
    + destruct (span p s) as [a' b']. intros [= <- <-].
      constructor; [exact Hc | eapply IH; reflexivity].
    + intros [= <- <-]. constructor.
Qed.

Lemma span_stop s a c b : span p s = (a, c :: b) -> p c = false.
Proof.
  revert a. induction s as [|d s IH]; intros a; simpl.
  - intros [=].
  - destruct (p d) eqn:Hd.
    + destruct (span p s) as [a' b']. intros [= <- ->]. eapply IH. reflexivity.
    + intros [= <- <- <-]. exact Hd.
Qed.

(** A run followed by a character outside the class (or by nothing) is
    consumed exactly. *)
Lemma span_exact a b :
  Forall (fun c => p c = true) a ->
  match b with c :: _ => p c = false | [] => True end ->
  span p (a ++ b) = (a, b).
Proof.
  intros Ha Hb. induction Ha as [|c a Hc _ IH]; simpl.
  - destruct b as [|c b]; [reflexivity|]. simpl. rewrite Hb. reflexivity.
  - rewrite Hc, IH. reflexivity.
Qed.
End Span.

Lemma strip_prefix_app p s rest : strip_prefix p s = Some rest -> s = p ++ rest.
Proof.
  revert s. induction p as [|a p IH]; intros s; simpl.
  - intros [= ->]. reflexivity.
  - destruct s as [|b s]; [intros [=]|].
    destruct (N.eqb_spec a b) as [->|]; [|intros [=]].
    intros H. f_equal. apply IH, H.
Qed.

Lemma strip_prefix_exact p rest : strip_prefix p (p ++ rest) = Some rest.
Proof.
  induction p as [|a p IH]; simpl; [reflexivity|].
  rewrite N.eqb_refl. exact IH.
Qed.

(** ** What the tag pattern matches *)

Lemma between_spec lo hi c : between lo hi c = true <-> (lo <= c <= hi)%N.
Proof.
  unfold between. rewrite andb_true_iff, !N.leb_le. reflexivity.
Qed.

Lemma is_letter_range c : is_letter c = true -> (65 <= c <= 122)%N.
Proof.
  unfold is_letter, is_lower, is_upper.
  rewrite orb_true_iff, !between_spec. lia.
Qed.

Lemma is_space_range c : is_space c = true -> (c <= 32 \/ 133 <= c)%N.
Proof.
  unfold is_space. rewrite !orb_true_iff, !between_spec, !N.eqb_eq. lia.
Qed.

Lemma letter_not_special c :
  is_letter c = true -> c <> LT /\ c <> GT /\ c <> SLASH /\ is_space c = false.
Proof.
  intros H. apply is_letter_range in H. unfold LT, GT, SLASH.
  repeat split; try lia.
  destruct (is_space c) eqn:Hs; [|reflexivity].
  apply is_space_range in Hs. lia.
Qed.

Lemma space_not_letter c : is_space c = true -> is_letter c = false.
Proof.
  intros Hs. destruct (is_letter c) eqn:Hl; [|reflexivity].
  apply letter_not_special in Hl. destruct Hl as (_ & _ & _ & Hl). congruence.
Qed.

Lemma space_not_gt c : is_space c = true -> (c =? GT)%N = false.
Proof.
  intros Hs. apply is_space_range in Hs. apply N.eqb_neq. unfold GT. lia.
Qed.

Lemma optional_slash_app s sl rest :
  optional_slash s = (sl, rest) -> s = sl ++ rest /\ (sl = [] \/ sl = [SLASH]).
Proof.
  unfold optional_slash. destruct s as [|d s'].
  - intros [= <- <-]. auto.
  - destruct (N.eqb_spec d SLASH) as [->|]; intros [= <- <-]; auto.
Qed.

Lemma optional_slash_exact sl c rest :
  sl = [] \/ sl = [SLASH] -> c <> SLASH ->
  optional_slash (sl ++ c :: rest) = (sl, c :: rest).
Proof.
  intros [-> | ->] Hc; unfold optional_slash; cbn [app].
  - destruct (N.eqb_spec c SLASH); [contradiction|reflexivity].
  - rewrite N.eqb_refl. reflexivity.
Qed.

(** Soundness: a match splits the text into a tag of the allowed shape and
    the rest. *)
Lemma match_tag_sound s m rest :
  match_tag s = Some (m, rest) ->
  exists attrs,
    tag_parts (slash m) (name m) attrs
    /\ whole m = tag_text (slash m) (name m) attrs
    /\ s = whole m ++ rest.
Proof.
  unfold match_tag. destruct s as [|c s1]; [intros [=]|].
  destruct (N.eqb_spec c LT) as [->|]; [|intros [=]].
  destruct (optional_slash s1) as [sl s2] eqn:Hsl.
  apply optional_slash_app in Hsl. destruct Hsl as [-> Hsl].
  destruct (span is_letter s2) as [nm s3] eqn:Hspan.
  pose proof (span_app _ _ _ _ Hspan) as ->.
  pose proof (span_all _ _ _ _ Hspan) as Hnm.
  destruct nm as [|n0 nm]; [intros [=]|].
  destruct s3 as [|d s4]; [intros [=]|].
  destruct (N.eqb_spec d GT) as [->|Hd].
  - intros [= <- <-]. exists []. cbn [slash name whole]. split; [|split].
    + constructor; auto; discriminate.
    + reflexivity.
    + unfold tag_text. app_norm. reflexivity.
  - destruct (is_space d) eqn:Hsp; [|intros [=]].
    destruct (span (fun e => negb (e =? GT)%N) s4) as [attrs s5] eqn:Hspan2.
    pose proof (span_app _ _ _ _ Hspan2) as ->.
    pose proof (span_all _ _ _ _ Hspan2) as Hattrs.
    destruct s5 as [|e s6]; [intros [=]|].
    apply span_stop in Hspan2. apply negb_false_iff, N.eqb_eq in Hspan2. subst e.
    intros [= <- <-]. exists (d :: attrs). cbn [slash name whole]. split; [|split].
    + constructor; auto; try discriminate. right. eauto.
    + reflexivity.
    + unfold tag_text. app_norm. reflexivity.
Qed.

(** Completeness: a tag of the allowed shape is matched whole, whatever
    follows it. *)
Lemma match_tag_complete sl nm attrs rest :
  tag_parts sl nm attrs ->
  match_tag (tag_text sl nm attrs ++ rest)
  = Some (TagMatch (tag_text sl nm attrs) sl nm, rest).
Proof.
  intros [Hsl Hne Hnm Hattrs]. unfold tag_text, match_tag.
  destruct nm as [|n0 nm]; [congruence|].
  pose proof (Forall_inv Hnm) as Hn0. apply letter_not_special in Hn0.
  destruct Hn0 as (_ & _ & Hn0 & _).
  app_norm. change (LT =? LT)%N with true. cbv iota.
  rewrite (optional_slash_exact sl n0 _ Hsl Hn0).
  destruct Hattrs as [-> | (w & a & -> & Hw & Ha)]; app_norm.
  - pose proof (span_exact is_letter (n0 :: nm) (GT :: rest) Hnm eq_refl) as E.
    cbn [app] in E. rewrite E.
    change (GT =? GT)%N with true. cbv iota. reflexivity.
  - pose proof (span_exact is_letter (n0 :: nm) (w :: a ++ GT :: rest) Hnm
                  (space_not_letter _ Hw)) as E.
    cbn [app] in E. rewrite E.
    rewrite (space_not_gt _ Hw), Hw.
    rewrite (span_exact _ a (GT :: rest) Ha eq_refl). reflexivity.
Qed.

(** ** What the entity pattern matches *)

Lemma first_entity_sound alts s e rest :
  first_entity alts s = Some (e, rest) ->
  exists alt body,
    In alt alts /\ alt s = Some (body, SEMI :: rest) /\ e = AMP :: body ++ [SEMI].
Proof.
  induction alts as [|alt alts IH]; simpl; [intros [=]|].
  destruct (alt s) as [[body [|c r]]|] eqn:Halt.
  - intros H. destruct (IH H) as (a & b & ? & ? & ?). eauto 10.
  - destruct (N.eqb_spec c SEMI) as [->|].
    + intros [= <- <-]. exists alt, body. auto.
    + intros H. destruct (IH H) as (a & b & ? & ? & ?). eauto 10.
  - intros H. destruct (IH H) as (a & b & ? & ? & ?). eauto 10.
Qed.

Lemma alt_literal_sound lit s body r :
  alt_literal lit s = Some (body, r) -> body = lit /\ s = lit ++ r.
Proof.
  unfold alt_literal. destruct (strip_prefix lit s) as [rest|] eqn:H; [|intros [=]].
  intros [= <- <-]. split; [reflexivity|]. apply strip_prefix_app, H.
Qed.

Lemma alt_decimal_sound s body r :
  alt_decimal s = Some (body, r) ->
  exists ds, ds <> [] /\ Forall (fun c => is_decimal c = true) ds
             /\ body = HASH :: ds /\ s = body ++ r.
Proof.
  unfold alt_decimal. destruct s as [|c s1]; [intros [=]|].
  destruct (N.eqb_spec c HASH) as [->|]; [|intros [=]].
  destruct (span is_decimal s1) as [ds rest] eqn:Hspan.
  destruct ds as [|d ds]; [intros [=]|]. intros [= <- <-].
  exists (d :: ds). split; [discriminate|]. split; [eapply span_all, Hspan|].
  split; [reflexivity|]. apply span_app in Hspan. subst s1. reflexivity.
Qed.

Lemma alt_hex_sound s body r :
  alt_hex s = Some (body, r) ->
  exists hs, hs <> [] /\ Forall (fun c => is_hex c = true) hs
             /\ body = HASH :: LOWER_X :: hs /\ s = body ++ r.
Proof.
  unfold alt_hex. destruct s as [|c [|d s1]]; [intros [=]|intros [=]|].
  destruct (N.eqb_spec c HASH) as [->|]; [|intros [=]].
  destruct (N.eqb_spec d LOWER_X) as [->|]; [|intros [=]]. cbn [andb].
  destruct (span is_hex s1) as [hs rest] eqn:Hspan.
  destruct hs as [|h hs]; [intros [=]|]. intros [= <- <-].
  exists (h :: hs). split; [discriminate|]. split; [eapply span_all, Hspan|].
  split; [reflexivity|]. apply span_app in Hspan. subst s1. reflexivity.
Qed.

(** Soundness: a match splits the text into a recognized entity and the
    rest. *)
Lemma match_entity_sound s e rest :
  match_entity s = Some (e, rest) -> recognized_entity e /\ s = e ++ rest.
Proof.
  unfold match_entity. destruct s as [|c s1]; [intros [=]|].
  destruct (N.eqb_spec c AMP) as [->|]; [|intros [=]].
  intros H. apply first_entity_sound in H.
  destruct H as (alt & body & Hin & Halt & ->).
  assert (Hnamed : forall lit, In lit NAMED_ENTITIES ->
            alt_literal lit s1 = Some (body, SEMI :: rest) ->
            recognized_entity (AMP :: body ++ [SEMI])
            /\ AMP :: s1 = (AMP :: body ++ [SEMI]) ++ rest).
  { intros lit Hlit Hl. apply alt_literal_sound in Hl. destruct Hl as [-> ->].
    split; [constructor; exact Hlit|]. app_norm. reflexivity. }
  unfold ENTITY_ALTERNATIVES in Hin. cbn [In] in Hin.
  destruct Hin as [<-|[<-|[<-|[<-|[<-|[<-|[]]]]]]].
  - apply (Hnamed (py "amp")); [cbn; auto|exact Halt].
  - apply (Hnamed (py "lt")); [cbn; auto|exact Halt].
  - apply (Hnamed (py "gt")); [cbn; auto|exact Halt].
  - apply (Hnamed (py "quot")); [cbn; auto 10|exact Halt].
  - apply alt_decimal_sound in Halt. destruct Halt as (ds & Hne & Hds & -> & ->).
    split; [constructor; assumption|]. app_norm. reflexivity.
  - apply alt_hex_sound in Halt. destruct Halt as (hs & Hne & Hhs & -> & ->).
    split; [constructor; assumption|]. app_norm. reflexivity.
Qed.

Lemma semi_not_decimal : is_decimal SEMI = false.
Proof. vm_compute. reflexivity. Qed.

Lemma x_not_decimal : is_decimal LOWER_X = false.
Proof. vm_compute. reflexivity. Qed.

Lemma semi_not_hex : is_hex SEMI = false.
Proof. vm_compute. reflexivity. Qed.

(** Completeness: a recognized entity is matched whole, whatever follows
    it. *)
Lemma match_entity_complete e rest :
  recognized_entity e -> match_entity (e ++ rest) = Some (e, rest).
Proof.
  intros [nm Hnm | ds Hne Hds | hs Hne Hhs].
  - unfold NAMED_ENTITIES in Hnm. cbn [In] in Hnm.
    destruct Hnm as [<-|[<-|[<-|[<-|[]]]]]; reflexivity.
  - unfold match_entity. app_norm. change (AMP =? AMP)%N with true. cbv iota.
    unfold ENTITY_ALTERNATIVES. cbn [first_entity].
    change (alt_literal (py "amp") (HASH :: ds ++ SEMI :: rest)) with (@None (str * str)).
    change (alt_literal (py "lt") (HASH :: ds ++ SEMI :: rest)) with (@None (str * str)).
    change (alt_literal (py "gt") (HASH :: ds ++ SEMI :: rest)) with (@None (str * str)).
    change (alt_literal (py "quot") (HASH :: ds ++ SEMI :: rest)) with (@None (str * str)).
    cbv iota. unfold alt_decimal. change (HASH =? HASH)%N with true. cbv iota.
    rewrite (span_exact is_decimal ds (SEMI :: rest) Hds semi_not_decimal).
    destruct ds as [|d ds]; [congruence|].
    change (SEMI =? SEMI)%N with true. cbv iota. reflexivity.
  - unfold match_entity. app_norm. change (AMP =? AMP)%N with true. cbv iota.
    unfold ENTITY_ALTERNATIVES. cbn [first_entity].
    change (alt_literal (py "amp") (HASH :: LOWER_X :: hs ++ SEMI :: rest)) with (@None (str * str)).
    change (alt_literal (py "lt") (HASH :: LOWER_X :: hs ++ SEMI :: rest)) with (@None (str * str)).
    change (alt_literal (py "gt") (HASH :: LOWER_X :: hs ++ SEMI :: rest)) with (@None (str * str)).
    change (alt_literal (py "quot") (HASH :: LOWER_X :: hs ++ SEMI :: rest)) with (@None (str * str)).
    cbv iota. unfold alt_decimal at 1. change (HASH =? HASH)%N with true. cbv iota.
    cbn [span]. rewrite x_not_decimal. cbv iota.
    unfold alt_hex. change (HASH =? HASH)%N with true.
    change (LOWER_X =? LOWER_X)%N with true. cbn [andb]. cbv iota.
    rewrite (span_exact is_hex hs (SEMI :: rest) Hhs semi_not_hex).
    destruct hs as [|h hs]; [congruence|].
    change (SEMI =? SEMI)%N with true. cbv iota. reflexivity.
Qed.

(** ** The sanitizer loop *)

Lemma match_tag_shorter s m rest :
  match_tag s = Some (m, rest) -> length rest < length s.
Proof.
  intros H. apply match_tag_sound in H. destruct H as (attrs & _ & Hw & ->).
  rewrite Hw, length_app. unfold tag_text. cbn [length]. lia.
Qed.

Lemma recognized_entity_cons e : recognized_entity e -> exists e', e = AMP :: e'.
Proof. intros []; eauto. Qed.

Lemma match_entity_shorter s e rest :
  match_entity s = Some (e, rest) -> length rest < length s.
Proof.
  intros H. apply match_entity_sound in H. destruct H as [He ->].
  apply recognized_entity_cons in He. destruct He as [e' ->].
  rewrite length_app. cbn [length]. lia.
Qed.

(** Once there is one unit of fuel per character, more fuel changes
    nothing: the loop stops on the empty text. *)
Lemma sanitize_loop_enough fuel1 : forall fuel2 text,
  length text <= fuel1 -> length text <= fuel2 ->
  sanitize_loop fuel1 text = sanitize_loop fuel2 text.
Proof.
  induction fuel1 as [|fuel1 IH]; intros fuel2 text H1 H2.
  - destruct text; [|cbn [length] in H1; lia]. destruct fuel2; reflexivity.
  - destruct text as [|c text1]; [destruct fuel2; reflexivity|].
    destruct fuel2 as [|fuel2]; [cbn [length] in H2; lia|].
    cbn [length] in H1, H2. cbn [sanitize_loop].
    destruct (c =? LT)%N.
    { destruct (match_tag (c :: text1)) as [[m rest]|] eqn:Hm.
      - apply match_tag_shorter in Hm. cbn [length] in Hm.
        destruct (bool_decide _); f_equal; apply IH; lia.
      - f_equal; apply IH; lia. }
    destruct (c =? GT)%N; [f_equal; apply IH; lia|].
    destruct (c =? AMP)%N; [|f_equal; apply IH; lia].
    destruct (match_entity (c :: text1)) as [[e rest]|] eqn:He.
    + apply match_entity_shorter in He. cbn [length] in He.
      f_equal; apply IH; lia.
    + f_equal; apply IH; lia.
Qed.

Lemma sanitize_loop_pieces fuel text :
  length text <= fuel -> sanitize_loop fuel text = sanitize_pieces text.
Proof. intros H. apply sanitize_loop_enough; [exact H|reflexivity]. Qed.

(** [sanitize_telegram_html] is the concatenation of its pieces, also on the
    empty text. *)
Lemma sanitize_concat text :
  sanitize_telegram_html text = concat (sanitize_pieces text).
Proof. destruct text; reflexivity. Qed.

(** One iteration of the loop, for each kind of text in front. *)
Lemma sanitize_loop_tag fuel t rest :
  whitelisted_tag t ->
  sanitize_loop (S fuel) (t ++ rest) = t :: sanitize_loop fuel rest.
Proof.
  intros (sl & nm & attrs & Hparts & Hallowed & ->).
  pose proof (match_tag_complete sl nm attrs rest Hparts) as Hm.
  unfold tag_text in *. cbn [app sanitize_loop] in *.
  change (LT =? LT)%N with true. cbv iota. rewrite Hm. cbn [name whole].
  rewrite bool_decide_eq_true_2 by exact Hallowed. reflexivity.
Qed.

Lemma sanitize_loop_entity fuel e rest :
  recognized_entity e ->
  sanitize_loop (S fuel) (e ++ rest) = e :: sanitize_loop fuel rest.
Proof.
  intros He. pose proof (match_entity_complete e rest He) as Hm.
  apply recognized_entity_cons in He. destruct He as [e' ->].
  cbn [app sanitize_loop] in *.
  change (AMP =? LT)%N with false. change (AMP =? GT)%N with false.
  change (AMP =? AMP)%N with true. cbv iota. rewrite Hm. reflexivity.
Qed.

Lemma sanitize_loop_plain fuel c rest :
  c <> LT -> c <> GT -> c <> AMP ->
  sanitize_loop (S fuel) (c :: rest) = [c] :: sanitize_loop fuel rest.
Proof.
  intros H1 H2 H3. cbn [sanitize_loop].
  apply N.eqb_neq in H1, H2, H3. rewrite H1, H2, H3. reflexivity.
Qed.

(** ** Pieces of the output *)

Lemma escapes_are_entities :
  recognized_entity ESC_LT /\ recognized_entity ESC_GT /\ recognized_entity ESC_AMP.
Proof.
  split; [|split].
  - apply (entity_named (py "lt")). cbn. auto.
  - apply (entity_named (py "gt")). cbn. auto.
  - apply (entity_named (py "amp")). cbn. auto.
Qed.

Lemma sanitized_piece_safe i o : sanitized_piece i o -> safe_piece o.
Proof.
  destruct escapes_are_entities as (Hlt & Hgt & Hamp).
  intros []; first [ apply safe_tag; assumption
                   | apply safe_entity; assumption
                   | apply safe_plain; assumption ].
Qed.

Lemma sanitize_loop_sound fuel : forall text,
  length text <= fuel ->
  exists ins, concat ins = text /\ Forall2 sanitized_piece ins (sanitize_loop fuel text).
Proof.
  induction fuel as [|fuel IH]; intros text Hlen.
  - destruct text; [|cbn [length] in Hlen; lia]. exists []. split; constructor.
  - destruct text as [|c text1]; [exists []; split; constructor|].
    cbn [length] in Hlen. cbn [sanitize_loop].
    assert (Hone : forall o, sanitized_piece [c] o ->
              exists ins, concat ins = c :: text1
                /\ Forall2 sanitized_piece ins (o :: sanitize_loop fuel text1)).
    { intros o Ho. destruct (IH text1) as (ins & <- & Hins); [lia|].
      exists ([c] :: ins). split; [reflexivity|]. constructor; assumption. }
    destruct (N.eqb_spec c LT) as [->|HLT].
    { destruct (match_tag (LT :: text1)) as [[m rest]|] eqn:Hm;
        [|apply Hone; constructor].
      destruct (bool_decide (lower (name m) ∈ ALLOWED_TAGS)) eqn:Hallowed;
        [|apply Hone; constructor].
      apply bool_decide_eq_true_1 in Hallowed.
      pose proof (match_tag_shorter _ _ _ Hm) as Hshort. cbn [length] in Hshort.
      apply match_tag_sound in Hm. destruct Hm as (attrs & Hparts & Hw & Htext).
      destruct (IH rest) as (ins & <- & Hins); [lia|].
      exists (whole m :: ins). split; [symmetry; exact Htext|].
      constructor; [|assumption]. apply piece_tag.
      exists (slash m), (name m), attrs. auto. }
    destruct (N.eqb_spec c GT) as [->|HGT]; [apply Hone; constructor|].
    destruct (N.eqb_spec c AMP) as [->|HAMP]; [|apply Hone; constructor; assumption].
    destruct (match_entity (AMP :: text1)) as [[e rest]|] eqn:He;
      [|apply Hone; constructor].
    pose proof (match_entity_shorter _ _ _ He) as Hshort. cbn [length] in Hshort.
    apply match_entity_sound in He. destruct He as [He Htext].
    destruct (IH rest) as (ins & <- & Hins); [lia|].
    exists (e :: ins). split; [symmetry; exact Htext|].
    constructor; [|assumption]. apply piece_entity, He.
Qed.

Lemma sanitized_pieces_safe ins outs :
  Forall2 sanitized_piece ins outs -> Forall safe_piece outs.
Proof.
  induction 1 as [|i o ins outs Hio _ IH]; constructor.
  - eapply sanitized_piece_safe, Hio.
  - exact IH.
Qed.

Lemma sanitize_pieces_safe text : Forall safe_piece (sanitize_pieces text).
Proof.
  destruct (sanitize_loop_sound (length text) text) as (ins & _ & H); [lia|].
  eapply sanitized_pieces_safe, H.
Qed.

(** Text made of safe pieces is read back by the loop piece by piece. *)
Lemma sanitize_loop_safe outs : forall fuel,
  Forall safe_piece outs -> length (concat outs) <= fuel ->
  sanitize_loop fuel (concat outs) = outs.
Proof.
  induction outs as [|o outs IH]; intros fuel Hall Hlen.
  - destruct fuel; reflexivity.
  - apply Forall_cons in Hall. destruct Hall as [Ho Hall].
    cbn [concat] in *. rewrite length_app in Hlen.
    assert (Hpos : 0 < length o).
    { destruct Ho as [t (sl & nm & attrs & _ & _ & ->) | e He | c].
      - unfold tag_text. cbn [length]. lia.
      - apply recognized_entity_cons in He. destruct He as [e' ->]. cbn [length]. lia.
      - cbn [length]. lia. }
    destruct fuel as [|fuel]; [lia|].
    destruct Ho as [t Ht | e He | c H1 H2 H3].
    + rewrite sanitize_loop_tag by exact Ht. f_equal. apply IH; [assumption|lia].
    + rewrite sanitize_loop_entity by exact He. f_equal. apply IH; [assumption|lia].
    + cbn [app]. rewrite sanitize_loop_plain by assumption.
      f_equal. apply IH; [assumption|]. cbn [length] in Hlen. lia.
Qed.

(** Every input splits into slices and the output of
    [sanitize_telegram_html] into as many pieces, slice by slice; each
    output piece is a whitelisted tag, an entity as the pattern of the code
    recognizes it (with any Unicode decimal digit) or a character other than
    [<], [>], [&]; and a slice that is not copied is a single [<], [>] or
    [&], rendered as its escape. *)
Lemma sanitize_output_pieces (x : str) :
  exists ins outs : list str,
    x = concat ins
    /\ sanitize_telegram_html x = concat outs
    /\ Forall2 sanitized_piece ins outs
    /\ Forall safe_piece outs.
Proof.
  destruct (sanitize_loop_sound (length x) x) as (ins & Hins & Hpieces); [lia|].
  exists ins, (sanitize_pieces x). split; [auto|]. split; [apply sanitize_concat|].
  split; [exact Hpieces|]. apply sanitize_pieces_safe.
Qed.

(** C6.  Idempotence: sanitizing the output of the sanitizer changes
    nothing.  It holds for every input, hence for those made of whitelisted
    tags and literal text. *)
Theorem sanitize_idempotent (x : str) :
  sanitize_telegram_html (sanitize_telegram_html x) = sanitize_telegram_html x.
Proof.
  rewrite (sanitize_concat x), sanitize_concat. f_equal.
  apply sanitize_loop_safe; [apply sanitize_pieces_safe|reflexivity].
Qed.

(** ** Case of the tags kept by the sanitizer *)

Lemma sanitize_tag_front t rest :
  whitelisted_tag t ->
  sanitize_telegram_html (t ++ rest) = t ++ sanitize_telegram_html rest.
Proof.
  intros Ht. rewrite !sanitize_concat. unfold sanitize_pieces at 1.
  assert (Hlen : exists n, length (t ++ rest) = S n /\ length rest <= n).
  { destruct Ht as (sl & nm & attrs & _ & _ & ->). unfold tag_text.
    cbn [app length]. eexists. split; [reflexivity|]. rewrite !length_app. lia. }
  destruct Hlen as (n & -> & Hn).
  rewrite sanitize_loop_tag by exact Ht. cbn [concat].
  rewrite sanitize_loop_pieces by exact Hn. reflexivity.
Qed.

Example uppercase_b_is_whitelisted : whitelisted_tag (py "<B>").
Proof.
  exists [], (py "B"), []. split; [|split].
  - constructor; [auto|discriminate|repeat constructor|auto].
  - apply (bool_decide_unpack _). vm_compute. exact I.
  - reflexivity.
Qed.

(** C8 (as stated, refuted).  The tag [<B>] comes out as [<B>]: the output
    holds no lowercase letter at all, so the tag name was not lowercased. *)
Lemma sanitize_uppercase_tag_not_lowered :
  sanitize_telegram_html (py "<B>") = py "<B>"
  /\ sanitize_telegram_html (py "<B>") <> py "<b>"
  /\ Forall (fun c => is_lower c = false) (sanitize_telegram_html (py "<B>")).
Proof.
  split; [vm_compute; reflexivity|]. split; [vm_compute; discriminate|].
  vm_compute. repeat constructor.
Qed.

(** C8 (amended).  Tag names are matched case-insensitively and the matched
    tag is copied as it is written, in whatever case: a whitelisted tag at
    the front of the input is the front of the output, and the rest is
    sanitized on its own. *)
Theorem sanitize_keeps_tag_case (t rest : str) :
  whitelisted_tag t ->
  sanitize_telegram_html (t ++ rest) = t ++ sanitize_telegram_html rest.
Proof. apply sanitize_tag_front. Qed.

Lemma sanitize_keeps_tag_case_witness :
  whitelisted_tag (py "<B>")
  /\ sanitize_telegram_html (py "<B>" ++ py "old & new</B>")
     = py "<B>" ++ sanitize_telegram_html (py "old & new</B>").
Proof.
  split; [exact uppercase_b_is_whitelisted|].
  apply (sanitize_keeps_tag_case (py "<B>") (py "old & new</B>")).
  exact uppercase_b_is_whitelisted.
Defined.

(** ** The validator as a stack machine *)

Lemma validate_loop_lifo matches : forall stack,
  validate_loop matches (rev stack) = lifo_check (tracked_events matches) stack.
Proof.
  induction matches as [|m matches IH]; intros stack.
  - cbn [validate_loop tracked_events lifo_check].
    destruct stack as [|top stack]; [reflexivity|].
    cbn [rev]. apply bool_decide_eq_false_2. rewrite length_app. cbn [length]. lia.
  - cbn [validate_loop tracked_events]. unfold tracked_event.
    destruct (bool_decide (lower (name m) ∈ ALLOWED_TAGS)); cbn [negb]; [|apply IH].
    destruct (is_closing m); cbn [lifo_check].
    + destruct stack as [|top stack]; [reflexivity|].
      cbn [rev]. rewrite last_snoc, removelast_last.
      rewrite bool_decide_eq_false_2 by (intros H; apply app_eq_nil in H; destruct H; discriminate).
      cbn [orb]. destruct (decide (top = lower (name m))) as [->|Hne].
      * rewrite !bool_decide_eq_true_2 by reflexivity. cbn [negb]. apply IH.
      * rewrite !bool_decide_eq_false_2 by congruence. reflexivity.
    + apply (IH (lower (name m) :: stack)).
Qed.

(** C7.  The validator is strict LIFO matching over the whitelisted tags:
    other tags are ignored, an open tag is pushed, a close tag fails at once
    unless its name is on top of the stack, and the text is valid exactly
    when the stack ends empty.  Nested tags pass, crossing tags fail. *)
Theorem validate_is_lifo :
  (forall x : str,
     validate_telegram_html x = lifo_check (tracked_events (finditer x)) [])
  /\ validate_telegram_html (py "<b>a<i>b</i></b>") = true
  /\ validate_telegram_html (py "<b>a<i>b</b></i>") = false.
Proof.
  split; [|split].
  - intros x. apply (validate_loop_lifo (finditer x) []).
  - vm_compute. reflexivity.
  - vm_compute. reflexivity.
Qed.

(** ** The dispatcher *)

Lemma in_dom_lookup (report : gmap string pyval) (k : string) :
  bool_decide (k ∈ dom report) = match report !! k with Some _ => true | None => false end.
Proof.
  destruct (report !! k) as [v|] eqn:Hk.
  - apply bool_decide_eq_true_2, elem_of_dom. eauto.
  - apply bool_decide_eq_false_2. rewrite elem_of_dom, Hk. intros [v [=]].
Qed.

Lemma format_error (report : gmap string pyval) error :
  report !! "error"%string = Some error ->
  format_process_report report
  = Some (py "Error: <b>" ++ html_escape (py_str error) ++ py "</b>").
Proof.
  intros He. unfold format_process_report. rewrite in_dom_lookup, He. reflexivity.
Qed.

Lemma replace_char_app c r a b :
  replace_char c r (a ++ b) = replace_char c r a ++ replace_char c r b.
Proof. unfold replace_char. rewrite map_app, concat_app. reflexivity. Qed.

Lemma html_escape_app a b : html_escape (a ++ b) = html_escape a ++ html_escape b.
Proof. unfold html_escape. rewrite !replace_char_app. reflexivity. Qed.

(** What [html.escape] makes of one character. *)
Lemma html_escape_char c :
  html_escape [c]
  = if (c =? AMP)%N then py "&amp;"
    else if (c =? LT)%N then py "&lt;"
    else if (c =? GT)%N then py "&gt;"
    else if (c =? DQUOTE)%N then py "&quot;"
    else if (c =? SQUOTE)%N then py "&#x27;"
    else [c].
Proof.
  destruct (N.eqb_spec c AMP) as [->|HA]; [reflexivity|].
  destruct (N.eqb_spec c LT) as [->|HL]; [reflexivity|].
  destruct (N.eqb_spec c GT) as [->|HG]; [reflexivity|].
  destruct (N.eqb_spec c DQUOTE) as [->|HD]; [reflexivity|].
  destruct (N.eqb_spec c SQUOTE) as [->|HS]; [reflexivity|].
  apply N.eqb_neq in HA, HL, HG, HD, HS.
  unfold html_escape, replace_char. cbn [map concat app].
  rewrite HA. cbn [map concat app]. rewrite HL. cbn [map concat app].
  rewrite HG. cbn [map concat app]. rewrite HD. cbn [map concat app].
  rewrite HS. reflexivity.
Qed.

(** Escaped text holds no angle bracket. *)
Lemma html_escape_no_angles s : ~ In LT (html_escape s) /\ ~ In GT (html_escape s).
Proof.
  induction s as [|c s [IHl IHg]]; [split; intros []|].
  change (c :: s) with ([c] ++ s). rewrite html_escape_app, html_escape_char.
  assert (Hc : ~ In LT (if (c =? AMP)%N then py "&amp;"
                        else if (c =? LT)%N then py "&lt;"
                        else if (c =? GT)%N then py "&gt;"
                        else if (c =? DQUOTE)%N then py "&quot;"
                        else if (c =? SQUOTE)%N then py "&#x27;"
                        else [c])
               /\ ~ In GT (if (c =? AMP)%N then py "&amp;"
                           else if (c =? LT)%N then py "&lt;"
                           else if (c =? GT)%N then py "&gt;"
                           else if (c =? DQUOTE)%N then py "&quot;"
                           else if (c =? SQUOTE)%N then py "&#x27;"
                           else [c])).
  { destruct (N.eqb_spec c AMP); [split; vm_compute; intuition discriminate|].
    destruct (N.eqb_spec c LT); [split; vm_compute; intuition discriminate|].
    destruct (N.eqb_spec c GT); [split; vm_compute; intuition discriminate|].
    destruct (N.eqb_spec c DQUOTE); [split; vm_compute; intuition discriminate|].
    destruct (N.eqb_spec c SQUOTE); [split; vm_compute; intuition discriminate|].
    split; intros [E|[]]; congruence. }
  destruct Hc as [Hl Hg].
  split; intros H; apply in_app_or in H; tauto.
Qed.

(** C2.  Dispatch of [format_process_report]: with an ["error"] key, the
    escaped error value in a bold tag after the fixed label; otherwise with a
    ["report"] key, the sanitized report truncated to 4096 when it passes
    the validator and the escaped raw report, which holds no angle bracket,
    when it does not; with neither key, the literal [Done]. *)
Theorem format_process_report_dispatch (report : gmap string pyval) :
  (forall error,
     report !! "error"%string = Some error ->
     format_process_report report
     = Some (py "Error: <b>" ++ html_escape (py_str error) ++ py "</b>"))
  /\ (forall raw_report,
        report !! "error"%string = None ->
        report !! "report"%string = Some (PyStr raw_report) ->
        format_process_report report
        = Some (if validate_telegram_html (sanitize_telegram_html raw_report)
                then truncate_html (sanitize_telegram_html raw_report) 4096
                else html_escape raw_report)
        /\ (validate_telegram_html (sanitize_telegram_html raw_report) = false ->
            exists escaped,
              format_process_report report = Some escaped
              /\ ~ In LT escaped /\ ~ In GT escaped))
  /\ (report !! "error"%string = None ->
      report !! "report"%string = None ->
      format_process_report report = Some (py "Done")).
Proof.
  split; [|split].
  - intros error He. apply format_error, He.
  - intros raw He Hr.
    assert (E : format_process_report report
                = Some (if validate_telegram_html (sanitize_telegram_html raw)
                        then truncate_html (sanitize_telegram_html raw) 4096
                        else html_escape raw)).
    { unfold format_process_report. rewrite !in_dom_lookup, He, Hr. cbn.
      destruct (validate_telegram_html (sanitize_telegram_html raw)); reflexivity. }
    split; [exact E|]. intros Hinvalid. rewrite Hinvalid in E.
    exists (html_escape raw). split; [exact E|apply html_escape_no_angles].
  - intros He Hr. unfold format_process_report.
    rewrite !in_dom_lookup, He, Hr. reflexivity.
Qed.

Lemma format_process_report_dispatch_witness :
  format_process_report {[ "error"%string := PyStr (py "a<b") ]}
  = Some (py "Error: <b>a&lt;b</b>")
  /\ format_process_report {[ "report"%string := PyStr (py "<b>hi</i> & bye") ]}
     = Some (py "&lt;b&gt;hi&lt;/i&gt; &amp; bye")
  /\ format_process_report {[ "report"%string := PyStr (py "<b>hi</b> & bye") ]}
     = Some (py "<b>hi</b> &amp; bye")
  /\ format_process_report {[ "processed_entries"%string := PyInt 0 ]}
     = Some (py "Done").
Proof.
  split; [|split; [|split]].
  - destruct (format_process_report_dispatch
                {[ "error"%string := PyStr (py "a<b") ]}) as (H & _ & _).
    rewrite (H (PyStr (py "a<b"))) by (vm_compute; reflexivity).
    vm_compute. reflexivity.
  - destruct (format_process_report_dispatch
                {[ "report"%string := PyStr (py "<b>hi</i> & bye") ]}) as (_ & H & _).
    destruct (H (py "<b>hi</i> & bye")) as [E _]; [vm_compute; reflexivity..|].
    rewrite E. vm_compute. reflexivity.
  - destruct (format_process_report_dispatch
                {[ "report"%string := PyStr (py "<b>hi</b> & bye") ]}) as (_ & H & _).
    destruct (H (py "<b>hi</b> & bye")) as [E _]; [vm_compute; reflexivity..|].
    rewrite E. vm_compute. reflexivity.
  - destruct (format_process_report_dispatch
                {[ "processed_entries"%string := PyInt 0 ]}) as (_ & _ & H).
    apply H; vm_compute; reflexivity.
Defined.

(** C9.  Error-key precedence: when both keys are present the result is the
    error line, and it is the same whatever the ["report"] value is, or
    without it: the report is neither read nor returned. *)
Theorem format_error_takes_precedence (report : gmap string pyval) error raw_report :
  report !! "error"%string = Some error ->
  report !! "report"%string = Some raw_report ->
  format_process_report report
  = Some (py "Error: <b>" ++ html_escape (py_str error) ++ py "</b>")
  /\ (forall other,
        format_process_report (<["report"%string := other]> report)
        = format_process_report report)
  /\ format_process_report (delete "report"%string report)
     = format_process_report report.
Proof.
  intros He Hr. rewrite (format_error report error He). split; [reflexivity|]. split.
  - intros other. apply format_error. rewrite lookup_insert_ne by discriminate. exact He.
  - apply format_error. rewrite lookup_delete_ne by discriminate. exact He.
Qed.

Lemma format_error_takes_precedence_witness :
  format_process_report
    {[ "error"%string := PyStr (py "boom <x>"); "report"%string := PyStr (py "<b>ok</b>") ]}
  = Some (py "Error: <b>boom &lt;x&gt;</b>").
Proof.
  destruct (format_error_takes_precedence
              {[ "error"%string := PyStr (py "boom <x>");
                 "report"%string := PyStr (py "<b>ok</b>") ]}
              (PyStr (py "boom <x>")) (PyStr (py "<b>ok</b>"))) as (H & _ & _).
  - vm_compute. reflexivity.
  - vm_compute. reflexivity.
  - rewrite H. vm_compute. reflexivity.
Defined.

(** ** Empty segments *)

(** C10.  A segment can be empty: a text of white space longer than the
    budget is one chunk, which is stripped to the empty string when it is
    emitted.  So it is with two spaces and a budget of one, and with 4001
    spaces and the default budget of 4000. *)
Theorem split_can_emit_empty_segment :
  (exists (x : str) (max_length : Z),
      (Z.of_nat (length x) > max_length)%Z
      /\ Forall (fun c => is_space c = true) x
      /\ split_parts x max_length = [strip x]
      /\ In [] (split_html_report x max_length))
  /\ split_html_report (repeat SPACE 4001) 4000 = [[]].
Proof.
  split.
  - exists (py "  "), 1%Z. split; [reflexivity|]. split; [repeat constructor|].
    split; [vm_compute; reflexivity|]. vm_compute. auto.
  - vm_compute. reflexivity.
Qed.

(** ** Chunk reconstruction *)

Lemma trimmed_of_refl s : trimmed_of s s.
Proof. exists [], []. rewrite app_nil_r. auto. Qed.

Lemma lstrip_spec s :
  exists l, s = l ++ lstrip s /\ Forall (fun c => is_space c = true) l.
Proof.
  induction s as [|c s (l & Hl & Hsp)]; [exists []; auto|].
  cbn [lstrip]. destruct (is_space c) eqn:Hc.
  - exists (c :: l). split; [cbn [app]; congruence|]. constructor; assumption.
  - exists []. auto.
Qed.

Lemma strip_trimmed s : trimmed_of s (strip s).
Proof.
  unfold strip, rstrip.
  destruct (lstrip_spec s) as (l & Hl & Hlsp).
  destruct (lstrip_spec (rev (lstrip s))) as (r & Hr & Hrsp).
  exists l, (rev r). split; [|split].
  - rewrite <- rev_app_distr, <- Hr, rev_involutive. exact Hl.
  - exact Hlsp.
  - apply List.Forall_rev, Hrsp.
Qed.

Lemma trimmed_of_length part seg : trimmed_of part seg -> length seg <= length part.
Proof. intros (l & r & -> & _). rewrite !length_app. lia. Qed.

Lemma split_inner_concat s : concat (split_inner s) = s.
Proof.
  induction s as [|c s IH]; [reflexivity|]. cbn [split_inner].
  destruct (at_marker s).
  - cbn [concat app]. congruence.
  - destruct (split_inner s) as [|piece pieces]; cbn [concat app] in *; congruence.
Qed.

Lemma re_split_seed_concat text : concat (re_split_seed text) = text.
Proof.
  unfold re_split_seed. destruct (at_marker text); apply split_inner_concat.
Qed.

Lemma re_split_seed_nonempty text : re_split_seed text <> [].
Proof.
  unfold re_split_seed. destruct (at_marker text); [discriminate|].
  destruct text as [|c s]; [discriminate|]. cbn [split_inner].
  destruct (at_marker s); [discriminate|]. destruct (split_inner s); discriminate.
Qed.

(** The loop keeps every chunk it has read: in a part already closed, of
    which [parts] holds the trimmed text, or in [current]. *)
Lemma accumulate_keeps max_length chunks :
  forall current parts raws current' parts',
    Forall (within max_length) chunks ->
    within max_length current ->
    Forall2 trimmed_of raws parts ->
    Forall (within max_length) parts ->
    accumulate chunks max_length current parts = (current', parts') ->
    exists raws',
      Forall2 trimmed_of raws' parts'
      /\ concat raws' ++ current' = concat raws ++ current ++ concat chunks
      /\ within max_length current'
      /\ Forall (within max_length) parts'.
Proof.
  induction chunks as [|chunk chunks IH];
    intros current parts raws current' parts' Hchunks Hcur Hraws Hparts Hacc.
  - cbn in Hacc. injection Hacc as <- <-. exists raws.
    cbn [concat]. rewrite app_nil_r. auto.
  - apply Forall_cons in Hchunks. destruct Hchunks as [Hchunk Hchunks].
    cbn [accumulate] in Hacc. destruct chunk as [|c chunk].
    { cbn [concat app]. eapply IH; eassumption. }
    destruct (Z.leb_spec (Z.of_nat (length current) + Z.of_nat (length (c :: chunk)))
                max_length) as [Hfit|Hover].
    + assert (Hcur' : within max_length (current ++ c :: chunk)).
      { unfold within. rewrite length_app. lia. }
      destruct (IH _ _ raws _ _ Hchunks Hcur' Hraws Hparts Hacc)
        as (raws' & H1 & H2 & H3 & H4).
      exists raws'. split; [exact H1|]. split; [|auto].
      rewrite H2. cbn [concat]. app_norm. reflexivity.
    + destruct current as [|d current].
      * destruct (IH _ _ raws _ _ Hchunks Hchunk Hraws Hparts Hacc)
          as (raws' & H1 & H2 & H3 & H4).
        exists raws'. split; [exact H1|]. split; [|auto].
        rewrite H2. cbn [concat]. app_norm. reflexivity.
      * assert (Hraws' : Forall2 trimmed_of (raws ++ [d :: current])
                           (parts ++ [strip (d :: current)])).
        { apply Forall2_app; [exact Hraws|]. constructor; [apply strip_trimmed|constructor]. }
        assert (Hparts' : Forall (within max_length) (parts ++ [strip (d :: current)])).
        { apply Forall_app. split; [exact Hparts|]. constructor; [|constructor].
          pose proof (trimmed_of_length _ _ (strip_trimmed (d :: current))).
          unfold within in *. lia. }
        destruct (IH _ _ _ _ _ Hchunks Hchunk Hraws' Hparts' Hacc)
          as (raws' & H1 & H2 & H3 & H4).
        exists raws'. split; [exact H1|]. split; [|auto].
        rewrite H2, concat_app. cbn [concat]. app_norm. reflexivity.
Qed.

Lemma split_parts_keeps text max_length :
  Forall (within max_length) (re_split_seed text) ->
  reconstructs text (split_parts text max_length)
  /\ Forall (within max_length) (split_parts text max_length).
Proof.
  intros Hpieces. unfold split_parts.
  assert (H0 : within max_length []).
  { destruct (re_split_seed text) as [|p ps] eqn:E;
      [destruct (re_split_seed_nonempty _ E)|].
    apply Forall_inv in Hpieces. unfold within in *. cbn [length]. lia. }
  destruct (accumulate (re_split_seed text) max_length [] []) as [current parts] eqn:Hacc.
  destruct (accumulate_keeps _ _ [] [] [] _ _ Hpieces H0 (List.Forall2_nil _) (List.Forall_nil _) Hacc)
    as (raws & H1 & H2 & H3 & H4).
  cbn [concat app] in H2. rewrite re_split_seed_concat in H2.
  destruct current as [|c current].
  - rewrite app_nil_r in H2. split; [exists raws; auto|exact H4].
  - split.
    + exists (raws ++ [c :: current]). split.
      * rewrite concat_app. cbn [concat]. rewrite app_nil_r. exact H2.
      * apply Forall2_app; [exact H1|]. constructor; [apply strip_trimmed|constructor].
    + apply Forall_app. split; [exact H4|]. constructor; [|constructor].
      pose proof (trimmed_of_length _ _ (strip_trimmed (c :: current))).
      unfold within in *. lia.
Qed.

Lemma map_within_id max_length (parts : list str) :
  Forall (within max_length) parts ->
  map (fun part =>
         if (Z.of_nat (length part) <=? max_length)%Z then part
         else truncate_html part max_length) parts = parts.
Proof.
  induction 1 as [|p parts Hp _ IH]; [reflexivity|]. cbn [map].
  unfold within in Hp. apply Z.leb_le in Hp. rewrite Hp, IH. reflexivity.
Qed.

Lemma reconstructs_single x seg : reconstructs x [seg] -> trimmed_of x seg.
Proof.
  intros (parts & Hx & Hparts).
  inversion Hparts as [|part seg' ps ss Hpart Hrest]; subst.
  inversion Hrest; subst. cbn [concat]. rewrite app_nil_r. exact Hpart.
Qed.

Lemma trimmed_of_In part seg c : trimmed_of part seg -> In c seg -> In c part.
Proof.
  intros (l & r & -> & _) Hc. apply in_or_app. right. apply in_or_app. left. exact Hc.
Qed.

(** C5 (as stated, refuted).  Two hundred [a] with a budget of 100 come out
    as fifty [a] and an ellipsis: the segments do not reproduce the text. *)
Lemma split_loses_truncated_content :
  split_html_report (repeat 97%N 200) 100 = [repeat 97%N 50 ++ py "..."]
  /\ ~ reconstructs (repeat 97%N 200) (split_html_report (repeat 97%N 200) 100).
Proof.
  assert (E : split_html_report (repeat 97%N 200) 100 = [repeat 97%N 50 ++ py "..."]).
  { vm_compute. reflexivity. }
  split; [exact E|]. rewrite E. intros H. apply reconstructs_single in H.
  assert (Hin : In 46%N (repeat 97%N 200)).
  { apply (trimmed_of_In _ _ _ H). apply in_or_app. right. left. reflexivity. }
  apply repeat_spec in Hin. discriminate Hin.
Qed.

(** C5 (amended).  When no piece of the text, cut at the seed markers, is
    longer than the budget, no segment is truncated and the segments
    reproduce the text in order, up to the white space trimmed at their
    ends. *)
Theorem split_reconstructs (x : str) (max_length : Z) :
  Forall (within max_length) (re_split_seed x) ->
  reconstructs x (split_html_report x max_length).
Proof.
  intros Hpieces. unfold split_html_report.
  destruct (Z.leb_spec (Z.of_nat (length x)) max_length) as [Hfit|Hover].
  - exists [x]. split; [cbn [concat]; apply app_nil_r|].
    constructor; [apply trimmed_of_refl|constructor].
  - destruct (split_parts_keeps x max_length Hpieces) as [Hrec Hwithin].
    destruct (split_parts x max_length) as [|p ps] eqn:Hparts.
    + destruct Hrec as (raws & Hx & Hraws). inversion Hraws; subst.
      cbn [concat length] in *.
      destruct (re_split_seed []) as [|q qs] eqn:E;
        [destruct (re_split_seed_nonempty _ E)|].
      apply Forall_inv in Hpieces. unfold within in Hpieces. lia.
    + rewrite (map_within_id max_length (p :: ps) Hwithin). exact Hrec.
Qed.

Lemma split_reconstructs_witness :
  reconstructs (py "intro <b>Seed #1</b> one  <b>Seed #2</b> two")
    [py "intro"; py "<b>Seed #1</b> one"; py "<b>Seed #2</b> two"].
Proof.
  change [py "intro"; py "<b>Seed #1</b> one"; py "<b>Seed #2</b> two"]
    with (split_html_report (py "intro <b>Seed #1</b> one  <b>Seed #2</b> two") 25).
  apply split_reconstructs. vm_compute. repeat constructor; discriminate.
Defined.

(** ** Matches of a concatenation *)

Lemma finditer_loop_enough fuel1 : forall fuel2 text,
  length text <= fuel1 -> length text <= fuel2 ->
  finditer_loop fuel1 text = finditer_loop fuel2 text.
Proof.
  induction fuel1 as [|fuel1 IH]; intros fuel2 text H1 H2.
  - destruct text; [|cbn [length] in H1; lia]. destruct fuel2; reflexivity.
  - destruct text as [|c text1]; [destruct fuel2; reflexivity|].
    destruct fuel2 as [|fuel2]; [cbn [length] in H2; lia|].
    cbn [length] in H1, H2. cbn [finditer_loop].
    destruct (match_tag (c :: text1)) as [[m rest]|] eqn:Hm.
    + apply match_tag_shorter in Hm. cbn [length] in Hm. f_equal. apply IH; lia.
    + apply IH; lia.
Qed.

(** The scan, one step at a time. *)
Lemma finditer_cons c text :
  finditer (c :: text)
  = match match_tag (c :: text) with
    | Some (m, rest) => m :: finditer rest
    | None => finditer text
    end.
Proof.
  unfold finditer. cbn [length finditer_loop].
  destruct (match_tag (c :: text)) as [[m rest]|] eqn:Hm.
  - apply match_tag_shorter in Hm. cbn [length] in Hm.
    f_equal. apply finditer_loop_enough; lia.
  - reflexivity.
Qed.

Lemma finditer_nil : finditer [] = [].
Proof. reflexivity. Qed.

Lemma closed_angles_app_r a b : closed_angles (a ++ b) = true -> closed_angles b = true.
Proof.
  induction a as [|c a IH]; [auto|]. cbn [app closed_angles].
  intros H. apply andb_true_iff in H. apply IH, H.
Qed.

Lemma tag_parts_no_gt sl nm attrs :
  tag_parts sl nm attrs -> ~ In GT (sl ++ nm ++ attrs).
Proof.
  intros [Hsl _ Hnm Hattrs] Hin.
  apply in_app_or in Hin. destruct Hin as [Hin|Hin].
  { destruct Hsl as [-> | ->]; [destruct Hin|].
    destruct Hin as [Hin|[]]. discriminate Hin. }
  apply in_app_or in Hin. destruct Hin as [Hin|Hin].
  { rewrite List.Forall_forall in Hnm. apply Hnm, letter_not_special in Hin.
    destruct Hin as (_ & Hgt & _). congruence. }
  destruct Hattrs as [-> | (w & a & -> & Hw & Ha)]; [destruct Hin|].
  destruct Hin as [->|Hin]; [vm_compute in Hw; discriminate Hw|].
  rewrite List.Forall_forall in Ha. apply Ha in Hin. vm_compute in Hin. discriminate Hin.
Qed.

(** A text that ends with the first [>] of [a ++ b], where [a] holds a [>],
    lies within [a]. *)
Lemma first_gt_within u : forall a b r,
  ~ In GT u -> In GT a -> u ++ GT :: r = a ++ b ->
  exists r', a = u ++ GT :: r'.
Proof.
  induction u as [|x u IH]; intros a b r Hu Ha Heq.
  - destruct a as [|y a]; [destruct Ha|]. cbn [app] in Heq.
    injection Heq as <- _. exists a. reflexivity.
  - destruct a as [|y a]; [destruct Ha|]. cbn [app] in Heq.
    injection Heq as <- Heq.
    destruct Ha as [->|Ha]; [destruct Hu; left; reflexivity|].
    destruct (IH a b r) as [r' ->]; [intros H; apply Hu; right; exact H|exact Ha|exact Heq|].
    exists r'. reflexivity.
Qed.

Lemma match_tag_eta m : TagMatch (whole m) (slash m) (name m) = m.
Proof. destruct m; reflexivity. Qed.

(** A match does not depend on what follows it. *)
Lemma match_tag_app a b m rest :
  match_tag a = Some (m, rest) -> match_tag (a ++ b) = Some (m, rest ++ b).
Proof.
  intros H. apply match_tag_sound in H. destruct H as (attrs & Hparts & Hw & ->).
  rewrite <- app_assoc, Hw, (match_tag_complete _ _ _ _ Hparts), <- Hw, match_tag_eta.
  reflexivity.
Qed.

(** Where a [>] follows, no match is missed for lack of text. *)
Lemma match_tag_app_none a b :
  In GT a -> match_tag (LT :: a) = None -> match_tag (LT :: a ++ b) = None.
Proof.
  intros Hgt Hnone.
  destruct (match_tag (LT :: a ++ b)) as [[m r]|] eqn:Hm; [|reflexivity].
  apply match_tag_sound in Hm. destruct Hm as (attrs & Hparts & Hw & Heq).
  rewrite Hw in Heq. unfold tag_text in Heq. cbn [app] in Heq.
  injection Heq as Heq.
  destruct (first_gt_within (slash m ++ name m ++ attrs) a b r) as [r' Ha].
  - apply tag_parts_no_gt, Hparts.
  - exact Hgt.
  - rewrite Heq. app_norm. reflexivity.
  - pose proof (match_tag_complete _ _ _ r' Hparts) as Hc.
    unfold tag_text in Hc. cbn [app] in Hc.
    replace ((slash m ++ name m ++ attrs ++ [GT]) ++ r') with a in Hc
      by (rewrite Ha; app_norm; reflexivity).
    congruence.
Qed.

Lemma existsb_gt_In s : existsb (N.eqb GT) s = true -> In GT s.
Proof.
  intros H. apply existsb_exists in H. destruct H as (c & Hc & Heq).
  apply N.eqb_eq in Heq. subst c. exact Hc.
Qed.

(** After a text whose tags are all finished, the scan goes on as if it
    started afresh. *)
Lemma finditer_app_bounded n : forall a b,
  length a <= n -> closed_angles a = true ->
  finditer (a ++ b) = finditer a ++ finditer b.
Proof.
  induction n as [|n IH]; intros a b Hlen Hclosed.
  - destruct a; [reflexivity|cbn [length] in Hlen; lia].
  - destruct a as [|c a]; [reflexivity|].
    cbn [length] in Hlen. cbn [app]. rewrite !finditer_cons.
    destruct (match_tag (c :: a)) as [[m rest]|] eqn:Hm.
    + rewrite (match_tag_app (c :: a) b m rest Hm : match_tag (c :: a ++ b) = _).
      pose proof (match_tag_shorter _ _ _ Hm) as Hshort. cbn [length] in Hshort.
      apply match_tag_sound in Hm. destruct Hm as (attrs & _ & _ & Heq).
      rewrite Heq in Hclosed. apply closed_angles_app_r in Hclosed.
      cbn [app]. f_equal. apply IH; [lia|exact Hclosed].
    + cbn [closed_angles] in Hclosed. apply andb_true_iff in Hclosed.
      destruct Hclosed as [Hgt Hclosed].
      assert (Hnone : match_tag (c :: a ++ b) = None).
      { destruct (N.eqb_spec c LT) as [->|Hc].
        - apply match_tag_app_none; [apply existsb_gt_In, Hgt|exact Hm].
        - unfold match_tag. apply N.eqb_neq in Hc. rewrite Hc. reflexivity. }
      rewrite Hnone. apply IH; [lia|exact Hclosed].
Qed.

Lemma finditer_app a b :
  closed_angles a = true -> finditer (a ++ b) = finditer a ++ finditer b.
Proof. apply (finditer_app_bounded (length a)). reflexivity. Qed.

(** ** The stack of open tags *)

Lemma validate_loop_run matches : forall tag_stack,
  validate_loop matches tag_stack = true <-> stack_run matches tag_stack = Some [].
Proof.
  induction matches as [|m matches IH]; intros tag_stack.
  - cbn [validate_loop stack_run]. rewrite bool_decide_eq_true.
    split; [intros H; apply length_zero_iff_nil in H; congruence|].
    intros [= ->]. reflexivity.
  - cbn [validate_loop stack_run].
    destruct (negb (bool_decide (lower (name m) ∈ ALLOWED_TAGS))); [apply IH|].
    destruct (is_closing m); [|apply IH].
    destruct (bool_decide (tag_stack = [])
              || negb (bool_decide (last tag_stack = Some (lower (name m)))));
      [split; discriminate|apply IH].
Qed.

Lemma stack_run_app matches1 matches2 : forall tag_stack,
  stack_run (matches1 ++ matches2) tag_stack
  = match stack_run matches1 tag_stack with
    | Some tag_stack' => stack_run matches2 tag_stack'
    | None => None
    end.
Proof.
  induction matches1 as [|m matches1 IH]; intros tag_stack; [reflexivity|].
  cbn [app stack_run].
  destruct (negb (bool_decide (lower (name m) ∈ ALLOWED_TAGS))); [apply IH|].
  destruct (is_closing m); [|apply IH].
  destruct (bool_decide (tag_stack = [])
            || negb (bool_decide (last tag_stack = Some (lower (name m)))));
    [reflexivity|apply IH].
Qed.

(** Where the validator does not fail, the truncator's loop computes the
    same stack. *)
Lemma open_tags_loop_run matches : forall tag_stack tag_stack',
  stack_run matches tag_stack = Some tag_stack' ->
  open_tags_loop matches tag_stack = tag_stack'.
Proof.
  induction matches as [|m matches IH]; intros tag_stack tag_stack'.
  - cbn. congruence.
  - cbn [stack_run open_tags_loop].
    destruct (negb (bool_decide (lower (name m) ∈ ALLOWED_TAGS))); [apply IH|].
    destruct (is_closing m); cbn [negb andb]; [|apply IH].
    destruct (bool_decide (tag_stack = [])); cbn [orb negb andb]; [discriminate|].
    destruct (bool_decide (last tag_stack = Some (lower (name m)))); cbn [negb];
      [apply IH|discriminate].
Qed.

Lemma stack_run_allowed matches : forall tag_stack tag_stack',
  Forall (fun tag => tag ∈ ALLOWED_TAGS) tag_stack ->
  stack_run matches tag_stack = Some tag_stack' ->
  Forall (fun tag => tag ∈ ALLOWED_TAGS) tag_stack'.
Proof.
  induction matches as [|m matches IH]; intros tag_stack tag_stack' Hall.
  - cbn. congruence.
  - cbn [stack_run].
    destruct (bool_decide (lower (name m) ∈ ALLOWED_TAGS)) eqn:Hallowed;
      cbn [negb]; [|apply IH, Hall].
    apply bool_decide_eq_true_1 in Hallowed.
    destruct (is_closing m).
    + destruct (bool_decide (tag_stack = [])
                || negb (bool_decide (last tag_stack = Some (lower (name m)))));
        [discriminate|].
      apply IH. destruct tag_stack as [|t ts] using rev_ind; [constructor|].
      rewrite removelast_last. apply Forall_app in Hall. apply Hall.
    + apply IH. apply Forall_app. split; [exact Hall|]. constructor; [exact Hallowed|constructor].
Qed.

(** The names in [ALLOWED_TAGS] are non-empty, made of letters, and in
    lower case. *)
Lemma allowed_tag_shape tag :
  tag ∈ ALLOWED_TAGS ->
  tag <> [] /\ Forall (fun c => is_letter c = true) tag /\ lower tag = tag.
Proof.
  unfold ALLOWED_TAGS. rewrite !elem_of_union, !elem_of_singleton.
  intros H.
  repeat match type of H with
         | _ \/ _ => destruct H as [H|H]
         end; subst tag;
    (split; [discriminate|split; [repeat constructor|reflexivity]]).
Qed.

Lemma match_closing_tag tag rest :
  tag ∈ ALLOWED_TAGS ->
  match_tag (closing_tag tag ++ rest) = Some (closing_match tag, rest).
Proof.
  intros Htag. apply allowed_tag_shape in Htag. destruct Htag as (Hne & Hletters & _).
  assert (Hparts : tag_parts [SLASH] tag []) by (constructor; auto).
  pose proof (match_tag_complete _ _ _ rest Hparts) as H.
  unfold tag_text in H. cbn [app] in H. exact H.
Qed.

Lemma finditer_closing_tags tags :
  Forall (fun tag => tag ∈ ALLOWED_TAGS) tags ->
  finditer (concat (map closing_tag tags)) = map closing_match tags.
Proof.
  induction 1 as [|tag tags Htag _ IH]; [reflexivity|].
  cbn [map concat]. pose proof (match_closing_tag tag (concat (map closing_tag tags)) Htag) as Hm.
  unfold closing_tag at 1. unfold closing_tag at 1 in Hm. cbn [app] in *.
  rewrite finditer_cons, Hm, IH. reflexivity.
Qed.

Lemma finditer_ellipsis s : finditer (ELLIPSIS ++ s) = finditer s.
Proof. unfold ELLIPSIS. cbn [app]. rewrite !finditer_cons. reflexivity. Qed.

(** Closing the open tags innermost first empties the stack. *)
Lemma stack_run_closing tag_stack :
  Forall (fun tag => tag ∈ ALLOWED_TAGS) tag_stack ->
  stack_run (map closing_match (rev tag_stack)) tag_stack = Some [].
Proof.
  induction tag_stack as [|tag tag_stack IH] using rev_ind; [reflexivity|].
  intros Hall. apply Forall_app in Hall. destruct Hall as [Hall Htag].
  apply Forall_inv in Htag.
  rewrite rev_unit. cbn [map stack_run closing_match name].
  destruct (allowed_tag_shape tag Htag) as (_ & _ & Hlower). rewrite Hlower.
  rewrite bool_decide_eq_true_2 by exact Htag. cbn [negb].
  unfold is_closing. cbn [slash]. rewrite bool_decide_eq_true_2 by reflexivity.
  rewrite last_snoc, removelast_last.
  rewrite bool_decide_eq_false_2
    by (intros H; apply app_eq_nil in H; destruct H; discriminate).
  rewrite bool_decide_eq_true_2 by reflexivity. cbn [orb negb].
  apply IH, Hall.
Qed.

(** ** Where the truncator cuts *)

Lemma In_existsb_gt s : In GT s -> existsb (N.eqb GT) s = true.
Proof.
  intros H. apply existsb_exists. exists GT. split; [exact H|apply N.eqb_refl].
Qed.

(** In such a text, what precedes a [<] has all its tags finished. *)
Lemma angles_alternate_before_lt q : forall inside r,
  angles_alternate inside (q ++ LT :: r) = true ->
  closed_angles q = true /\ (inside = true -> In GT q).
Proof.
  induction q as [|d q IH]; intros inside r H.
  - cbn [app angles_alternate] in H. change (LT =? LT)%N with true in H. cbv iota in H.
    apply andb_true_iff in H. destruct H as [H _].
    split; [reflexivity|]. intros ->. discriminate H.
  - cbn [app angles_alternate closed_angles] in *.
    destruct (N.eqb_spec d LT) as [->|HLT].
    + apply andb_true_iff in H. destruct H as [Hin H].
      destruct (IH true r H) as [Hclosed Hgt].
      rewrite (In_existsb_gt q (Hgt eq_refl)), Hclosed.
      split; [reflexivity|]. intros ->. discriminate Hin.
    + destruct (N.eqb_spec d GT) as [->|HGT].
      * destruct (IH false r H) as [Hclosed _].
        split; [exact Hclosed|]. intros _. left. reflexivity.
      * destruct (IH inside r H) as [Hclosed Hgt].
        split; [exact Hclosed|]. intros Hi. right. apply Hgt, Hi.
Qed.

Lemma rfind_char_bounds c s : (-1 <= rfind_char c s < Z.of_nat (length s))%Z.
Proof.
  induction s as [|d s IH]; cbn [rfind_char length]; [lia|].
  destruct (Z.leb_spec 0 (rfind_char c s)); [lia|].
  destruct (d =? c)%N; lia.
Qed.

(** The index returned by [rfind] holds the character. *)
Lemma rfind_char_split c s : forall i,
  rfind_char c s = Z.of_nat i -> s = take i s ++ c :: drop (S i) s.
Proof.
  induction s as [|d s IH]; intros i; cbn [rfind_char].
  - lia.
  - destruct (Z.leb_spec 0 (rfind_char c s)) as [Hpos|Hneg].
    + intros H. destruct i as [|i]; [lia|].
      cbn [take drop app]. f_equal. apply IH. lia.
    + destruct (N.eqb_spec d c) as [->|]; [|lia].
      intros H. destruct i as [|i]; [|lia]. reflexivity.
Qed.

Lemma rfind_char_In c s : (0 <= rfind_char c s)%Z -> In c s.
Proof.
  intros H. pose proof (rfind_char_bounds c s) as Hb.
  pose proof (rfind_char_split c s (Z.to_nat (rfind_char c s))) as Hs.
  rewrite Hs by lia. apply in_or_app. right. left. reflexivity.
Qed.

(** When the last [<] is not after the last [>], every tag is finished. *)
Lemma last_open_before_close s :
  (rfind_char LT s <= rfind_char GT s)%Z -> closed_angles s = true.
Proof.
  induction s as [|d s IH]; [reflexivity|].
  pose proof (rfind_char_bounds LT s) as Hlo.
  pose proof (rfind_char_bounds GT s) as Hlc.
  cbn [rfind_char closed_angles].
  destruct (Z.leb_spec 0 (rfind_char LT s)) as [Ho|Ho];
    destruct (Z.leb_spec 0 (rfind_char GT s)) as [Hc|Hc].
  - intros H. rewrite IH by lia.
    rewrite (In_existsb_gt s (rfind_char_In GT s Hc)). destruct (d =? LT)%N; reflexivity.
  - destruct (d =? GT)%N; lia.
  - intros H. rewrite IH by lia.
    rewrite (In_existsb_gt s (rfind_char_In GT s Hc)). destruct (d =? LT)%N; reflexivity.
  - destruct (N.eqb_spec d LT) as [->|HLT].
    + change (LT =? GT)%N with false. cbv iota. lia.
    + intros _. rewrite IH by lia. reflexivity.
Qed.

Lemma slice_end_le len e : slice_end len e <= len.
Proof. unfold slice_end. lia. Qed.

Lemma slice_end_index len e :
  (0 <= e < Z.of_nat len)%Z -> slice_end len e = Z.to_nat e.
Proof.
  intros H. unfold slice_end.
  destruct (Z.ltb_spec e 0); [lia|]. destruct (Z.ltb_spec e 0); lia.
Qed.

(** The text kept by the truncator is a prefix of the text, ... *)
Lemma truncated_prefix_take text max_length :
  exists k, truncated_prefix text max_length = take k text.
Proof. unfold truncated_prefix. eexists. reflexivity. Qed.

(** ... and in a well-bracketed text it ends outside of any tag. *)
Lemma truncated_prefix_closed text max_length :
  well_bracketed text = true ->
  closed_angles (truncated_prefix text max_length) = true.
Proof.
  intros Hwb. unfold truncated_prefix, rfind.
  set (k0 := slice_end (length text) (max_length - 50)).
  assert (Hk0 : k0 <= length text) by apply slice_end_le.
  set (p := take k0 text).
  assert (Hp : length p = k0) by (subst p; rewrite length_take; lia).
  pose proof (rfind_char_bounds LT p) as Hlo.
  pose proof (rfind_char_bounds GT p) as Hlc.
  destruct (Z.gtb_spec (rfind_char LT p) (rfind_char GT p)) as [Hgt|Hle].
  - rewrite slice_end_index by lia.
    set (i := Z.to_nat (rfind_char LT p)).
    pose proof (rfind_char_split LT p i ltac:(subst i; lia)) as Hsplit.
    assert (Hi : take i p = take i text).
    { subst p. rewrite take_take. f_equal. subst i. lia. }
    assert (Htext : text = take i text ++ LT :: (drop (S i) p ++ drop k0 text)).
    { rewrite <- (take_drop k0 text) at 1. fold p. rewrite Hsplit at 1.
      rewrite Hi. app_norm. reflexivity. }
    unfold well_bracketed in Hwb. rewrite Htext in Hwb.
    apply angles_alternate_before_lt in Hwb. apply Hwb.
  - fold k0. fold p. apply last_open_before_close. lia.
Qed.

(** The closing tags the truncator adds balance what it keeps. *)
Lemma truncate_html_valid text max_length :
  validate_telegram_html text = true ->
  well_bracketed text = true ->
  validate_telegram_html (truncate_html text max_length) = true.
Proof.
  intros Hvalid Hwb. unfold truncate_html.
  destruct (Z.of_nat (length text) <=? max_length)%Z; [exact Hvalid|].
  pose proof (truncated_prefix_closed text max_length Hwb) as Hclosed.
  destruct (truncated_prefix_take text max_length) as [k Hk].
  set (t := truncated_prefix text max_length) in *.
  unfold validate_telegram_html in *.
  apply validate_loop_run in Hvalid. apply validate_loop_run.
  rewrite <- (take_drop k text), <- Hk, (finditer_app _ _ Hclosed), stack_run_app in Hvalid.
  destruct (stack_run (finditer t) []) as [tag_stack|] eqn:Hrun; [|discriminate].
  rewrite (open_tags_loop_run _ _ _ Hrun).
  pose proof (stack_run_allowed _ _ _ (List.Forall_nil _) Hrun) as Hallowed.
  rewrite (finditer_app _ _ Hclosed), finditer_ellipsis.
  rewrite finditer_closing_tags by (apply List.Forall_rev, Hallowed).
  rewrite stack_run_app, Hrun. apply stack_run_closing, Hallowed.
Qed.

(** C3 (as stated, refuted).  A text within the budget is returned as it
    is, balanced or not: [<b>] stays [<b>], which the validator rejects. *)
Lemma truncate_returns_unbalanced_input :
  truncate_html (py "<b>") 4096 = py "<b>"
  /\ validate_telegram_html (truncate_html (py "<b>") 4096) = false.
Proof. split; vm_compute; reflexivity. Qed.

(** The cut backs up to the last [<] only: when that [<] stands inside the
    attributes of a tag, the start of the tag is kept and swallows the
    closing tags that are appended. *)
Example truncate_inside_attributes :
  let x := py "<b><a <c" ++ repeat 120%N 100 ++ py "></a></b>" in
  validate_telegram_html x = true
  /\ well_bracketed x = false
  /\ truncate_html x 60 = py "<b><a ...</b>"
  /\ validate_telegram_html (truncate_html x 60) = false.
Proof. repeat split; vm_compute; reflexivity. Qed.

(** C3 (amended).  The truncator keeps a balanced text balanced: when the
    text passes the validator and no [<] in it stands between a [<] and the
    next [>], the result passes the validator, for every budget. *)
Theorem truncate_keeps_valid (x : str) (max_length : Z) :
  validate_telegram_html x = true ->
  well_bracketed x = true ->
  validate_telegram_html (truncate_html x max_length) = true.
Proof. apply truncate_html_valid. Qed.

Lemma truncate_keeps_valid_witness :
  validate_telegram_html
    (truncate_html (py "<b><i>" ++ repeat 120%N 200 ++ py "</i></b>") 100) = true.
Proof.
  apply truncate_keeps_valid; vm_compute; reflexivity.
Defined.

(** ** Segments of the chunker *)

Lemma existsb_gt_app a b :
  existsb (N.eqb GT) (a ++ b) = existsb (N.eqb GT) a || existsb (N.eqb GT) b.
Proof. apply existsb_app. Qed.

Lemma closed_angles_app a b :
  closed_angles a = true -> closed_angles b = true -> closed_angles (a ++ b) = true.
Proof.
  intros Ha Hb. induction a as [|c a IH]; [exact Hb|].
  cbn [app closed_angles] in *. apply andb_true_iff in Ha. destruct Ha as [Hc Ha].
  rewrite IH by exact Ha. rewrite existsb_gt_app.
  destruct (c =? LT)%N; [rewrite Hc|]; reflexivity.
Qed.

Lemma angles_alternate_app a : forall inside b,
  angles_alternate inside a = true -> closed_angles a = true ->
  (inside = true -> In GT a) ->
  angles_alternate false b = true ->
  angles_alternate inside (a ++ b) = true.
Proof.
  induction a as [|c a IH]; intros inside b Ha Hclosed Hinside Hb.
  - destruct inside; [destruct (Hinside eq_refl)|exact Hb].
  - cbn [app angles_alternate closed_angles] in *.
    apply andb_true_iff in Hclosed. destruct Hclosed as [Hc Hclosed].
    destruct (N.eqb_spec c LT) as [->|HLT].
    + apply andb_true_iff in Ha. destruct Ha as [Hin Ha]. rewrite Hin. cbn [andb].
      apply IH; [exact Ha|exact Hclosed| |exact Hb].
      intros _. apply existsb_gt_In, Hc.
    + destruct (N.eqb_spec c GT) as [->|HGT].
      * apply IH; [exact Ha|exact Hclosed|discriminate|exact Hb].
      * apply IH; [exact Ha|exact Hclosed| |exact Hb].
        intros Hi. destruct (Hinside Hi) as [E|E]; [congruence|exact E].
Qed.

Lemma angles_alternate_prefix a : forall inside b,
  angles_alternate inside (a ++ b) = true -> angles_alternate inside a = true.
Proof.
  induction a as [|c a IH]; intros inside b H; [reflexivity|].
  cbn [app angles_alternate] in *.
  destruct (c =? LT)%N.
  - apply andb_true_iff in H. destruct H as [-> H]. cbn [andb]. eapply IH, H.
  - destruct (c =? GT)%N; eapply IH, H.
Qed.

Lemma space_not_lt c : is_space c = true -> (c =? LT)%N = false.
Proof.
  intros Hs. apply is_space_range in Hs. apply N.eqb_neq. unfold LT. lia.
Qed.

Lemma angles_alternate_spaces l : forall inside s,
  Forall (fun c => is_space c = true) l ->
  angles_alternate inside (l ++ s) = angles_alternate inside s.
Proof.
  induction l as [|c l IH]; intros inside s Hl; [reflexivity|].
  apply Forall_cons in Hl. destruct Hl as [Hc Hl].
  cbn [app angles_alternate]. rewrite (space_not_lt c Hc), (space_not_gt c Hc).
  apply IH, Hl.
Qed.

Lemma self_contained_nil : self_contained [].
Proof. repeat split. Qed.

Lemma self_contained_app a b :
  self_contained a -> self_contained b -> self_contained (a ++ b).
Proof.
  intros (Hva & Hca & Hwa) (Hvb & Hcb & Hwb). split; [|split].
  - unfold validate_telegram_html in *.
    apply validate_loop_run in Hva, Hvb. apply validate_loop_run.
    rewrite (finditer_app _ _ Hca), stack_run_app, Hva. exact Hvb.
  - apply closed_angles_app; assumption.
  - apply angles_alternate_app; [exact Hwa|exact Hca|discriminate|exact Hwb].
Qed.

Lemma self_contained_concat pieces :
  Forall self_contained pieces -> self_contained (concat pieces).
Proof.
  induction 1 as [|p pieces Hp _ IH]; [apply self_contained_nil|].
  cbn [concat]. apply self_contained_app; assumption.
Qed.

Lemma finditer_spaces l s :
  Forall (fun c => is_space c = true) l -> finditer (l ++ s) = finditer s.
Proof.
  induction 1 as [|c l Hc _ IH]; [reflexivity|].
  cbn [app]. rewrite finditer_cons. unfold match_tag.
  rewrite (space_not_lt c Hc). exact IH.
Qed.

Lemma spaces_no_gt r :
  Forall (fun c => is_space c = true) r -> existsb (N.eqb GT) r = false.
Proof.
  induction 1 as [|c r Hc _ IH]; [reflexivity|]. cbn [existsb].
  rewrite IH, N.eqb_sym, (space_not_gt c Hc). reflexivity.
Qed.

Lemma closed_angles_trim_r m r :
  Forall (fun c => is_space c = true) r ->
  closed_angles (m ++ r) = true -> closed_angles m = true.
Proof.
  intros Hr. induction m as [|c m IH]; [reflexivity|].
  cbn [app closed_angles]. rewrite existsb_gt_app, (spaces_no_gt r Hr), orb_false_r.
  intros H. apply andb_true_iff in H. destruct H as [Hc H].
  rewrite Hc, IH by exact H. reflexivity.
Qed.

(** Trimming white space changes neither the tags found nor the way the
    angle brackets alternate. *)
Lemma trimmed_self_contained part seg :
  trimmed_of part seg -> self_contained part -> self_contained seg.
Proof.
  intros (l & r & -> & Hl & Hr) (Hvalid & Hclosed & Hwb).
  apply closed_angles_app_r in Hclosed.
  pose proof (closed_angles_trim_r seg r Hr Hclosed) as Hseg.
  split; [|split; [exact Hseg|]].
  - unfold validate_telegram_html in *.
    rewrite (finditer_spaces l _ Hl), (finditer_app _ _ Hseg) in Hvalid.
    rewrite <- (app_nil_r r), (finditer_spaces r [] Hr), finditer_nil, app_nil_r in Hvalid.
    exact Hvalid.
  - unfold well_bracketed in *. rewrite (angles_alternate_spaces l _ _ Hl) in Hwb.
    eapply angles_alternate_prefix, Hwb.
Qed.

(** The loop builds [current] from self-contained chunks and closes only
    self-contained parts. *)
Lemma accumulate_self_contained max_length chunks :
  forall current parts current' parts',
    Forall self_contained chunks ->
    self_contained current ->
    Forall self_contained parts ->
    accumulate chunks max_length current parts = (current', parts') ->
    self_contained current' /\ Forall self_contained parts'.
Proof.
  induction chunks as [|chunk chunks IH];
    intros current parts current' parts' Hchunks Hcur Hparts Hacc.
  - cbn in Hacc. injection Hacc as <- <-. auto.
  - apply Forall_cons in Hchunks. destruct Hchunks as [Hchunk Hchunks].
    cbn [accumulate] in Hacc. destruct chunk as [|c chunk].
    { eapply IH; eassumption. }
    destruct (Z.of_nat (length current) + Z.of_nat (length (c :: chunk)) <=? max_length)%Z.
    + eapply IH; [exact Hchunks| |exact Hparts|exact Hacc].
      apply self_contained_app; assumption.
    + eapply IH; [exact Hchunks|exact Hchunk| |exact Hacc].
      destruct current as [|d current]; [exact Hparts|].
      apply Forall_app. split; [exact Hparts|]. constructor; [|constructor].
      eapply trimmed_self_contained; [apply strip_trimmed|exact Hcur].
Qed.

Lemma split_parts_self_contained text max_length :
  Forall self_contained (re_split_seed text) ->
  Forall self_contained (split_parts text max_length).
Proof.
  intros Hpieces. unfold split_parts.
  destruct (accumulate (re_split_seed text) max_length [] []) as [current parts] eqn:Hacc.
  destruct (accumulate_self_contained _ _ _ _ _ _ Hpieces self_contained_nil
              (List.Forall_nil _) Hacc) as [Hcur Hparts].
  destruct current as [|c current]; [exact Hparts|].
  apply Forall_app. split; [exact Hparts|]. constructor; [|constructor].
  eapply trimmed_self_contained; [apply strip_trimmed|exact Hcur].
Qed.

Lemma split_segments_valid text max_length :
  Forall self_contained (re_split_seed text) ->
  Forall (fun seg => validate_telegram_html seg = true)
         (split_html_report text max_length).
Proof.
  intros Hself.
  assert (Htext : self_contained text).
  { rewrite <- (re_split_seed_concat text). apply self_contained_concat, Hself. }
  unfold split_html_report.
  destruct (Z.of_nat (length text) <=? max_length)%Z.
  { constructor; [apply Htext|constructor]. }
  pose proof (split_parts_self_contained text max_length Hself) as Hparts.
  destruct (split_parts text max_length) as [|p ps].
  { constructor; [|constructor]. apply truncate_html_valid; apply Htext. }
  apply Forall_map. eapply Forall_impl; [exact Hparts|].
  intros part (Hv & _ & Hw). cbn beta.
  destruct (Z.of_nat (length part) <=? max_length)%Z; [exact Hv|].
  apply truncate_html_valid; assumption.
Qed.

Lemma split_segments_within text max_length :
  Forall (within max_length) (re_split_seed text) ->
  Forall (within max_length) (split_html_report text max_length).
Proof.
  intros Hwithin. unfold split_html_report.
  destruct (Z.leb_spec (Z.of_nat (length text)) max_length) as [Hfit|Hover].
  { constructor; [exact Hfit|constructor]. }
  destruct (split_parts_keeps text max_length Hwithin) as [Hrec Hparts].
  destruct (split_parts text max_length) as [|p ps] eqn:E.
  - destruct Hrec as (raws & Hx & Hraws). inversion Hraws; subst.
    cbn [concat length] in *.
    destruct (re_split_seed []) as [|q qs] eqn:Eq;
      [destruct (re_split_seed_nonempty _ Eq)|].
    apply Forall_inv in Hwithin. unfold within in Hwithin. lia.
  - rewrite (map_within_id max_length (p :: ps) Hparts). exact Hparts.
Qed.

(** C4 (as stated, refuted).  A balanced text of forty nested bold tags,
    with a budget of 100, comes out as one segment of 115 characters: sixteen
    tags are kept and sixteen closing tags are added after the ellipsis.  And
    a text within the budget is returned as it is: [<b>] alone is a segment
    that the validator rejects. *)
Lemma split_segment_over_budget_or_unbalanced :
  (let x := concat (repeat (py "<b>") 40) ++ concat (repeat (py "</b>") 40) in
   validate_telegram_html x = true
   /\ exists seg,
        split_html_report x 100 = [seg] /\ length seg = 115 /\ ~ within 100 seg)
  /\ split_html_report (py "<b>") 4000 = [py "<b>"]
  /\ validate_telegram_html (py "<b>") = false.
Proof.
  split; [|split].
  - split; [vm_compute; reflexivity|]. eexists.
    split; [vm_compute; reflexivity|]. split; [vm_compute; reflexivity|].
    unfold within. vm_compute. intros H. apply H. reflexivity.
  - vm_compute. reflexivity.
  - vm_compute. reflexivity.
Qed.

(** * Further properties of the formatters *)

(** ** Fixed points and length of the sanitizer *)

Lemma sanitize_safe_pieces outs :
  Forall safe_piece outs -> sanitize_telegram_html (concat outs) = concat outs.
Proof.
  intros Hsafe. rewrite sanitize_concat. f_equal.
  apply sanitize_loop_safe; [exact Hsafe|reflexivity].
Qed.

(** X1.  Text made of whitelisted tags, recognized entities and characters
    other than [<], [>], [&] is left as it is by the sanitizer. *)
Theorem sanitize_fixes_safe_text (pieces : list str) :
  Forall safe_piece pieces ->
  sanitize_telegram_html (concat pieces) = concat pieces.
Proof. apply sanitize_safe_pieces. Qed.

Example entity_amp_recognized : recognized_entity (py "&amp;").
Proof. apply (entity_named (py "amp")). cbn. auto. Qed.

Lemma sanitize_fixes_safe_text_witness :
  sanitize_telegram_html (py "<B>R&amp;D</B>") = py "<B>R&amp;D</B>".
Proof.
  change (py "<B>R&amp;D</B>")
    with (concat [py "<B>"; py "R"; py "&amp;"; py "D"; py "</B>"]).
  apply sanitize_fixes_safe_text.
  repeat first [ apply List.Forall_nil | apply List.Forall_cons ].
  - apply safe_tag. exists [], (py "B"), []. split; [|split].
    + constructor; [auto|discriminate|repeat constructor|auto].
    + apply (bool_decide_unpack _). vm_compute. exact I.
    + reflexivity.
  - apply safe_plain; discriminate.
  - apply safe_entity, entity_amp_recognized.
  - apply safe_plain; discriminate.
  - apply safe_tag. exists [SLASH], (py "B"), []. split; [|split].
    + constructor; [auto|discriminate|repeat constructor|auto].
    + apply (bool_decide_unpack _). vm_compute. exact I.
    + reflexivity.
Defined.

Lemma sanitized_piece_length i o :
  sanitized_piece i o -> length i <= length o <= 5 * length i.
Proof. intros []; cbn [length ESC_LT ESC_GT ESC_AMP]; lia. Qed.

Lemma sanitized_pieces_length ins outs :
  Forall2 sanitized_piece ins outs ->
  length (concat ins) <= length (concat outs) <= 5 * length (concat ins).
Proof.
  induction 1 as [|i o ins outs Hio _ IH]; [cbn; lia|].
  cbn [concat]. rewrite !length_app.
  apply sanitized_piece_length in Hio. lia.
Qed.

(** X2.  The sanitizer drops nothing: its output is at least as long as the
    input, and at most five times as long (an escaped [&] takes five
    characters). *)
Theorem sanitize_length_bounds (x : str) :
  length x <= length (sanitize_telegram_html x) <= 5 * length x.
Proof.
  destruct (sanitize_loop_sound (length x) x) as (ins & Hins & Hpieces); [lia|].
  rewrite sanitize_concat. unfold sanitize_pieces.
  pose proof (sanitized_pieces_length _ _ Hpieces) as H. rewrite Hins in H. exact H.
Qed.

(** ** Escaped text *)

Lemma finditer_no_lt s : ~ In LT s -> finditer s = [].
Proof.
  induction s as [|c s IH]; intros Hs; [reflexivity|].
  rewrite finditer_cons. unfold match_tag.
  destruct (N.eqb_spec c LT) as [->|_]; [destruct Hs; left; reflexivity|].
  apply IH. intros H. apply Hs. right. exact H.
Qed.

Lemma closed_angles_no_lt s : ~ In LT s -> closed_angles s = true.
Proof.
  induction s as [|c s IH]; intros Hs; [reflexivity|]. cbn [closed_angles].
  destruct (N.eqb_spec c LT) as [->|_]; [destruct Hs; left; reflexivity|].
  apply IH. intros H. apply Hs. right. exact H.
Qed.

Lemma validate_no_lt s : ~ In LT s -> validate_telegram_html s = true.
Proof.
  intros Hs. unfold validate_telegram_html. rewrite (finditer_no_lt s Hs). reflexivity.
Qed.

Lemma html_escape_char_safe c : safe_piece (html_escape [c]).
Proof.
  rewrite html_escape_char.
  destruct (N.eqb_spec c AMP); [apply safe_entity, (entity_named (py "amp")); cbn; auto|].
  destruct (N.eqb_spec c LT); [apply safe_entity, (entity_named (py "lt")); cbn; auto|].
  destruct (N.eqb_spec c GT); [apply safe_entity, (entity_named (py "gt")); cbn; auto|].
  destruct (N.eqb_spec c DQUOTE);
    [apply safe_entity, (entity_named (py "quot")); cbn; auto 10|].
  destruct (N.eqb_spec c SQUOTE).
  - apply safe_entity, (entity_hex (py "27")); [discriminate|repeat constructor].
  - apply safe_plain; assumption.
Qed.

Lemma html_escape_pieces s :
  html_escape s = concat (map (fun c => html_escape [c]) s).
Proof.
  induction s as [|c s IH]; [reflexivity|].
  change (c :: s) with ([c] ++ s) at 1. rewrite html_escape_app, IH. reflexivity.
Qed.

Lemma html_escape_fixed s :
  sanitize_telegram_html (html_escape s) = html_escape s.
Proof.
  rewrite html_escape_pieces. apply sanitize_safe_pieces.
  apply Forall_map. apply List.Forall_forall. intros c _. apply html_escape_char_safe.
Qed.

(** X3.  Text escaped by [html.escape], the fallback of
    [format_process_report], is safe as it stands: the sanitizer leaves it
    unchanged and the validator accepts it. *)
Theorem html_escape_is_safe (s : str) :
  sanitize_telegram_html (html_escape s) = html_escape s
  /\ validate_telegram_html (html_escape s) = true.
Proof.
  split; [apply html_escape_fixed|].
  apply validate_no_lt, html_escape_no_angles.
Qed.

(** ** What the dispatcher returns passes the validator *)

Lemma error_line_valid e :
  ~ In LT e ->
  validate_telegram_html (py "Error: <b>" ++ e ++ py "</b>") = true.
Proof.
  intros He. unfold validate_telegram_html.
  rewrite (finditer_app (py "Error: <b>") _ eq_refl).
  rewrite (finditer_app e _ (closed_angles_no_lt e He)), (finditer_no_lt e He).
  vm_compute. reflexivity.
Qed.

Lemma format_report_valid raw :
  within 4096 (sanitize_telegram_html raw)
  \/ well_bracketed (sanitize_telegram_html raw) = true ->
  validate_telegram_html
    (if validate_telegram_html (sanitize_telegram_html raw)
     then truncate_html (sanitize_telegram_html raw) 4096
     else html_escape raw) = true.
Proof.
  intros Hpre.
  destruct (validate_telegram_html (sanitize_telegram_html raw)) eqn:Hvalid.
  - destruct Hpre as [Hfit|Hwb].
    + unfold truncate_html. unfold within in Hfit. apply Z.leb_le in Hfit.
      rewrite Hfit. exact Hvalid.
    + apply truncate_html_valid; assumption.
  - apply validate_no_lt, html_escape_no_angles.
Qed.

(** X4.  Whatever [format_process_report] returns passes the validator: the
    error line, the escaped fallback and the literal always; the sanitized
    report when it fits in 4096 characters or has no [<] between a [<] and
    the next [>] (the case in which truncation keeps it balanced). *)
Theorem format_process_report_valid (report : gmap string pyval) (out : str) :
  format_process_report report = Some out ->
  (forall raw_report,
     report !! "error"%string = None ->
     report !! "report"%string = Some (PyStr raw_report) ->
     within 4096 (sanitize_telegram_html raw_report)
     \/ well_bracketed (sanitize_telegram_html raw_report) = true) ->
  validate_telegram_html out = true.
Proof.
  intros Hout Hpre. unfold format_process_report in Hout.
  rewrite !in_dom_lookup in Hout.
  destruct (report !! "error"%string) as [error|] eqn:He.
  - cbn in Hout. injection Hout as <-.
    apply error_line_valid, html_escape_no_angles.
  - destruct (report !! "report"%string) as [[raw|z|]|] eqn:Hr; cbn in Hout.
    + specialize (Hpre raw eq_refl eq_refl).
      pose proof (format_report_valid raw Hpre) as Hv.
      destruct (validate_telegram_html (sanitize_telegram_html raw));
        cbn in Hout; injection Hout as <-; exact Hv.
    + destruct (z =? 0)%Z; cbn in Hout; [|discriminate].
      injection Hout as <-. reflexivity.
    + injection Hout as <-. reflexivity.
    + injection Hout as <-. vm_compute. reflexivity.
Qed.

Lemma format_process_report_valid_witness :
  validate_telegram_html (py "<b>Seed #1</b> R&amp;D &lt;draft&gt;") = true.
Proof.
  apply (format_process_report_valid
           {[ "report"%string := PyStr (py "<b>Seed #1</b> R&D <draft>");
              "processed_entries"%string := PyInt 1 ]}).
  - vm_compute. reflexivity.
  - intros raw _ Hr. vm_compute in Hr. injection Hr as <-.
    left. unfold within. vm_compute. discriminate.
Defined.

(** ** Length of a truncated text *)

Lemma truncate_html_cut text max_length :
  (max_length < Z.of_nat (length text))%Z ->
  truncate_html text max_length
  = truncated_prefix text max_length ++ ELLIPSIS
    ++ concat (map closing_tag (rev (open_at_cut text max_length))).
Proof.
  intros Hlen. unfold truncate_html, open_at_cut.
  destruct (Z.leb_spec (Z.of_nat (length text)) max_length); [lia|reflexivity].
Qed.

Lemma truncated_prefix_length text max_length :
  (50 <= max_length)%Z ->
  (Z.of_nat (length (truncated_prefix text max_length)) <= max_length - 50)%Z.
Proof.
  intros Hmax. unfold truncated_prefix, rfind.
  set (k0 := slice_end (length text) (max_length - 50)).
  assert (Hk0 : k0 <= length text) by apply slice_end_le.
  assert (Hk0' : (Z.of_nat k0 <= max_length - 50)%Z).
  { subst k0. unfold slice_end.
    destruct (Z.ltb_spec (max_length - 50) 0); [lia|].
    destruct (Z.ltb_spec (max_length - 50) 0); lia. }
  set (p := take k0 text).
  assert (Hp : length p = k0) by (subst p; rewrite length_take; lia).
  pose proof (rfind_char_bounds LT p) as Hlo.
  pose proof (rfind_char_bounds GT p) as Hlc.
  destruct (Z.gtb_spec (rfind_char LT p) (rfind_char GT p)) as [Hgt|Hle].
  - rewrite slice_end_index by lia. rewrite length_take. lia.
  - fold k0. rewrite length_take. lia.
Qed.

Lemma open_tags_loop_allowed matches : forall open_tags,
  Forall (fun tag => tag ∈ ALLOWED_TAGS) open_tags ->
  Forall (fun tag => tag ∈ ALLOWED_TAGS) (open_tags_loop matches open_tags).
Proof.
  induction matches as [|m matches IH]; intros open_tags Hall; [exact Hall|].
  cbn [open_tags_loop].
  destruct (bool_decide (lower (name m) ∈ ALLOWED_TAGS)) eqn:Hallowed;
    cbn [negb]; [|apply IH, Hall].
  apply bool_decide_eq_true_1 in Hallowed.
  destruct (is_closing m && negb (bool_decide (open_tags = []))
            && bool_decide (last open_tags = Some (lower (name m)))).
  - apply IH. destruct open_tags as [|t ts] using rev_ind; [constructor|].
    rewrite removelast_last. apply Forall_app in Hall. apply Hall.
  - destruct (negb (is_closing m)); [|apply IH, Hall].
    apply IH. apply Forall_app. split; [exact Hall|].
    constructor; [exact Hallowed|constructor].
Qed.

Lemma allowed_tag_length tag : tag ∈ ALLOWED_TAGS -> length tag <= 4.
Proof.
  unfold ALLOWED_TAGS. rewrite !elem_of_union, !elem_of_singleton.
  intros H.
  repeat match type of H with
         | _ \/ _ => destruct H as [H|H]
         end; subst tag; cbn; lia.
Qed.

Lemma closing_tags_length tags :
  Forall (fun tag => tag ∈ ALLOWED_TAGS) tags ->
  length (concat (map closing_tag tags)) <= 7 * length tags.
Proof.
  induction 1 as [|tag tags Htag _ IH]; [cbn; lia|].
  cbn [map concat]. rewrite length_app. unfold closing_tag at 1.
  cbn [length]. rewrite length_app. cbn [length].
  apply allowed_tag_length in Htag. lia.
Qed.

(** X5.  With a budget of at least 50, a truncated text has at most
    [max_length - 47] characters plus seven for each tag left open at the
    cut; with at most six tags open there, it fits the budget. *)
Theorem truncate_html_length (text : str) (max_length : Z) :
  (50 <= max_length)%Z ->
  (max_length < Z.of_nat (length text))%Z ->
  (Z.of_nat (length (truncate_html text max_length))
   <= max_length - 47 + 7 * Z.of_nat (length (open_at_cut text max_length)))%Z
  /\ (length (open_at_cut text max_length) <= 6 ->
      within max_length (truncate_html text max_length)).
Proof.
  intros Hmax Hlen.
  assert (Hbound :
    (Z.of_nat (length (truncate_html text max_length))
     <= max_length - 47 + 7 * Z.of_nat (length (open_at_cut text max_length)))%Z).
  { rewrite (truncate_html_cut text max_length Hlen), !length_app.
    pose proof (truncated_prefix_length text max_length Hmax) as Hprefix.
    pose proof (closing_tags_length (rev (open_at_cut text max_length))) as Hclosing.
    rewrite length_rev in Hclosing.
    specialize (Hclosing (List.Forall_rev
      (open_tags_loop_allowed _ [] (List.Forall_nil _)))).
    change (length ELLIPSIS) with 3. lia. }
  split; [exact Hbound|]. intros Hopen. unfold within. lia.
Qed.

Lemma truncate_html_length_witness :
  within 100 (truncate_html (py "<b><i>" ++ repeat 120%N 200 ++ py "</i></b>") 100).
Proof.
  apply truncate_html_length.
  - lia.
  - vm_compute. reflexivity.
  - vm_compute. lia.
Defined.

Lemma rfind_char_absent c s : ~ In c s -> rfind_char c s = (-1)%Z.
Proof.
  induction s as [|d s IH]; intros Hs; [reflexivity|].
  cbn [rfind_char]. rewrite IH by (intros H; apply Hs; right; exact H).
  cbn. destruct (N.eqb_spec d c) as [->|_]; [destruct Hs; left|]; reflexivity.
Qed.

Lemma In_take {A} (x : A) k (l : list A) : In x (take k l) -> In x l.
Proof.
  intros H. rewrite <- (take_drop k l). apply in_or_app. left. exact H.
Qed.

(** X6.  With a budget below 50 the cut point is negative, and Python counts
    a negative slice end from the end of the text: a text free of [<] that
    is longer than the budget loses its last [50 - max_length] characters,
    however many are left, and gets the ellipsis; once the text is longer
    than 47 characters the result is over the budget. *)
Theorem truncate_html_small_budget (text : str) (max_length : Z) :
  (max_length < 50)%Z ->
  (max_length < Z.of_nat (length text))%Z ->
  ~ In LT text ->
  truncate_html text max_length
  = take (length text - Z.to_nat (50 - max_length)) text ++ ELLIPSIS
  /\ (47 < length text -> ~ within max_length (truncate_html text max_length)).
Proof.
  intros Hmax Hlen Hlt.
  assert (E : truncate_html text max_length
              = take (length text - Z.to_nat (50 - max_length)) text ++ ELLIPSIS).
  { rewrite (truncate_html_cut text max_length Hlen). unfold open_at_cut.
    assert (Hprefix : truncated_prefix text max_length
                      = take (length text - Z.to_nat (50 - max_length)) text).
    { unfold truncated_prefix, rfind.
      rewrite (rfind_char_absent LT) by (intros H; apply Hlt, (In_take _ _ _ H)).
      pose proof (rfind_char_bounds GT
                    (take (slice_end (length text) (max_length - 50)) text)) as Hb.
      destruct (Z.gtb_spec (-1)
                  (rfind_char GT (take (slice_end (length text) (max_length - 50)) text)));
        [lia|].
      f_equal. unfold slice_end.
      destruct (Z.ltb_spec (max_length - 50) 0); [|lia].
      destruct (Z.ltb_spec (max_length - 50 + Z.of_nat (length text)) 0); lia. }
    rewrite Hprefix.
    rewrite (finditer_no_lt (take _ text)) by (intros H; apply Hlt, (In_take _ _ _ H)).
    cbn [open_tags_loop rev map concat]. rewrite app_nil_r. reflexivity. }
  split; [exact E|]. intros Hlong. rewrite E. unfold within.
  rewrite length_app, length_take. change (length ELLIPSIS) with 3. lia.
Qed.

Lemma truncate_html_small_budget_witness :
  truncate_html (repeat 120%N 60) 10 = repeat 120%N 20 ++ py "..."
  /\ ~ within 10 (truncate_html (repeat 120%N 60) 10).
Proof.
  destruct (truncate_html_small_budget (repeat 120%N 60) 10) as [E Hover].
  - lia.
  - vm_compute. reflexivity.
  - intros H. apply repeat_spec in H. discriminate H.
  - split; [exact E|]. apply Hover. vm_compute. lia.
Defined.

(** X7.  The truncator never cuts inside a tag of a text in which no [<]
    stands between a [<] and the next [>]: what it keeps is a prefix of the
    text in which every [<] has its [>], followed by the ellipsis and the
    closing tags of the tags open at the cut, innermost first. *)
Theorem truncate_html_cuts_outside_tags (text : str) (max_length : Z) :
  well_bracketed text = true ->
  (max_length < Z.of_nat (length text))%Z ->
  exists k,
    closed_angles (take k text) = true
    /\ truncate_html text max_length
       = take k text ++ ELLIPSIS
         ++ concat (map closing_tag (rev (open_at_cut text max_length))).
Proof.
  intros Hwb Hlen. destruct (truncated_prefix_take text max_length) as [k Hk].
  exists k. rewrite <- Hk. split.
  - apply truncated_prefix_closed, Hwb.
  - apply truncate_html_cut, Hlen.
Qed.

Lemma truncate_html_cuts_outside_tags_witness :
  exists k,
    closed_angles (take k (py "<b>bold</b> and <a href='x'>link</a>")) = true
    /\ truncate_html (py "<b>bold</b> and <a href='x'>link</a>") 30
       = take k (py "<b>bold</b> and <a href='x'>link</a>") ++ ELLIPSIS
         ++ concat (map closing_tag
              (rev (open_at_cut (py "<b>bold</b> and <a href='x'>link</a>") 30))).
Proof.
  apply truncate_html_cuts_outside_tags; vm_compute; reflexivity.
Defined.

(** ** Number of segments *)

Lemma accumulate_count max_length chunks :
  forall current parts current' parts',
    accumulate chunks max_length current parts = (current', parts') ->
    length parts' + nonempty_count [current']
    <= length parts + nonempty_count [current] + nonempty_count chunks.
Proof.
  induction chunks as [|chunk chunks IH]; intros current parts current' parts' Hacc.
  - cbn in Hacc. injection Hacc as <- <-. cbn [nonempty_count]. lia.
  - cbn [accumulate] in Hacc. destruct chunk as [|c chunk].
    { apply IH in Hacc. cbn [nonempty_count] in *. lia. }
    destruct (Z.of_nat (length current) + Z.of_nat (length (c :: chunk)) <=? max_length)%Z.
    + apply IH in Hacc. cbn [nonempty_count] in *.
      destruct current; cbn [app nonempty_count] in *; lia.
    + apply IH in Hacc. cbn [nonempty_count] in *.
      destruct current; cbn [nonempty_count] in *;
        [|rewrite length_app in Hacc; cbn [length] in Hacc]; lia.
Qed.

Lemma split_parts_count text max_length :
  length (split_parts text max_length) <= nonempty_count (re_split_seed text).
Proof.
  unfold split_parts.
  destruct (accumulate (re_split_seed text) max_length [] []) as [current parts] eqn:Hacc.
  apply accumulate_count in Hacc. cbn [nonempty_count length] in Hacc.
  destruct current; [|rewrite length_app]; cbn [nonempty_count length] in *; lia.
Qed.

(** X8.  [split_html_report] never returns an empty list (its callers read
    [parts[0]]), and never more segments than the text has non-empty
    pieces between seed markers. *)
Theorem split_html_report_count (text : str) (max_length : Z) :
  split_html_report text max_length <> []
  /\ length (split_html_report text max_length)
     <= Nat.max 1 (nonempty_count (re_split_seed text)).
Proof.
  pose proof (split_parts_count text max_length) as Hcount.
  unfold split_html_report.
  destruct (Z.of_nat (length text) <=? max_length)%Z; [split; [discriminate|cbn; lia]|].
  destruct (split_parts text max_length) as [|p ps]; [split; [discriminate|cbn; lia]|].
  split; [discriminate|]. rewrite length_map. lia.
Qed.

(** ** Where the text is cut *)

Lemma cut_points_cons p q rest :
  cut_points (p :: q :: rest)
  = length p :: map (Nat.add (length p)) (cut_points (q :: rest)).
Proof. reflexivity. Qed.

Lemma split_inner_nonempty s : split_inner s <> [].
Proof.
  destruct s as [|c s]; [discriminate|]. cbn [split_inner].
  destruct (at_marker s); [discriminate|]. destruct (split_inner s); discriminate.
Qed.

Lemma at_marker_nil : at_marker [] = false.
Proof. reflexivity. Qed.

Lemma split_inner_cut_points s : forall k,
  In k (cut_points (split_inner s)) <-> 1 <= k /\ at_marker (drop k s) = true.
Proof.
  induction s as [|c s IH]; intros k.
  - cbn [split_inner cut_points In]. rewrite drop_nil, at_marker_nil.
    split; [intros []|intros [_ H]; discriminate H].
  - cbn [split_inner]. destruct (at_marker s) eqn:Hs.
    + destruct (split_inner s) as [|q rest] eqn:E; [destruct (split_inner_nonempty _ E)|].
      rewrite cut_points_cons. cbn [length In]. rewrite in_map_iff. split.
      * intros [<-|(k' & <- & Hk')]; [split; [lia|exact Hs]|].
        apply IH in Hk'. split; [lia|apply Hk'].
      * intros [Hk Hm]. destruct k as [|[|k]]; [lia|left; reflexivity|].
        right. exists (S k). split; [reflexivity|]. apply IH. split; [lia|exact Hm].
    + destruct (split_inner s) as [|h [|q rest]] eqn:E.
      * destruct (split_inner_nonempty _ E).
      * cbn [cut_points In]. split; [intros []|].
        intros [Hk Hm]. destruct k as [|[|k]]; [lia|simpl drop in Hm; rewrite ?drop_0 in Hm; congruence|].
        apply (IH (S k)). split; [lia|exact Hm].
      * change (cut_points ((c :: h) :: q :: rest))
          with (S (length h) :: map (Nat.add (S (length h))) (cut_points (q :: rest))).
        rewrite cut_points_cons in IH. split.
        -- intros Hin.
           assert (Hin' : In (pred k) (length h :: map (Nat.add (length h)) (cut_points (q :: rest)))
                          /\ k = S (pred k)).
           { destruct Hin as [<-|Hin]; [split; [left|]; reflexivity|].
             apply in_map_iff in Hin. destruct Hin as (j & <- & Hj).
             split; [|reflexivity]. right. apply in_map_iff. exists j. auto. }
           destruct Hin' as [Hin' ->]. apply IH in Hin'.
           split; [lia|apply Hin'].
        -- intros [Hk Hm]. destruct k as [|[|k]]; [lia|simpl drop in Hm; rewrite ?drop_0 in Hm; congruence|].
           assert (Hin : In (S k) (length h :: map (Nat.add (length h)) (cut_points (q :: rest)))).
           { apply IH. split; [lia|exact Hm]. }
           destruct Hin as [E'|Hin]; [left; lia|].
           apply in_map_iff in Hin. destruct Hin as (j & Hj & Hin).
           right. apply in_map_iff. exists j. split; [lia|exact Hin].
Qed.

(** X9.  [re.split] with the seed lookahead loses nothing and cuts the text
    exactly at the occurrences of the marker: the pieces concatenate to the
    text, and a position is a cut point if and only if [<b>Seed #] starts
    there. *)
Theorem re_split_seed_cuts_at_markers (text : str) :
  concat (re_split_seed text) = text
  /\ forall k, In k (cut_points (re_split_seed text)) <-> at_marker (drop k text) = true.
Proof.
  split; [apply re_split_seed_concat|]. intros k.
  unfold re_split_seed. destruct (at_marker text) eqn:Ht.
  - destruct (split_inner text) as [|q rest] eqn:E; [destruct (split_inner_nonempty _ E)|].
    rewrite cut_points_cons. cbn [length In]. rewrite <- E. split.
    + intros [<-|Hin]; [exact Ht|].
      apply in_map_iff in Hin. destruct Hin as (j & <- & Hj).
      apply split_inner_cut_points in Hj. apply Hj.
    + intros Hm. destruct k as [|k]; [left; reflexivity|].
      right. apply in_map_iff. exists (S k). split; [reflexivity|].
      apply split_inner_cut_points. split; [lia|exact Hm].
  - rewrite split_inner_cut_points. split; [intros [_ H]; exact H|].
    intros Hm. split; [|exact Hm]. destruct k; [simpl drop in Hm; rewrite ?drop_0 in Hm; congruence|lia].
Qed.

(** ** How validity composes *)

(** The validator's loop does not look below the stack it starts from. *)
Lemma stack_run_frame base matches : forall tag_stack tag_stack',
  stack_run matches tag_stack = Some tag_stack' ->
  stack_run matches (base ++ tag_stack) = Some (base ++ tag_stack').
Proof.
  induction matches as [|m matches IH]; intros tag_stack tag_stack'.
  - cbn. congruence.
  - cbn [stack_run].
    destruct (negb (bool_decide (lower (name m) ∈ ALLOWED_TAGS))); [apply IH|].
    destruct (is_closing m).
    + destruct tag_stack as [|t ts _] using rev_ind; [discriminate|].
      rewrite app_assoc, !last_snoc, !removelast_last.
      assert (Hne : forall l : list str, bool_decide (l ++ [t] = []) = false).
      { intros l. apply bool_decide_eq_false_2.
        intros H. apply app_eq_nil in H. destruct H; discriminate. }
      rewrite !Hne. cbn [orb].
      destruct (negb (bool_decide (Some t = Some (lower (name m))))); [discriminate|].
      apply IH.
    + rewrite <- app_assoc. apply IH.
Qed.

Lemma validate_run text :
  validate_telegram_html text = true <-> stack_run (finditer text) [] = Some [].
Proof. apply validate_loop_run. Qed.

(** X10.  A text that passes the validator and leaves no tag unfinished
    does not change the verdict on what follows it:
    [validate_telegram_html(a + b) == validate_telegram_html(b)]. *)
Theorem validate_skips_valid_prefix (a b : str) :
  validate_telegram_html a = true -> closed_angles a = true ->
  validate_telegram_html (a ++ b) = validate_telegram_html b.
Proof.
  intros Hva Hca. apply validate_run in Hva.
  apply Bool.eq_iff_eq_true. rewrite !validate_run.
  rewrite (finditer_app _ _ Hca), stack_run_app, Hva. reflexivity.
Qed.

Lemma validate_skips_valid_prefix_witness :
  validate_telegram_html (py "<b>x</b>" ++ py "<i>")
  = validate_telegram_html (py "<i>").
Proof. apply validate_skips_valid_prefix; reflexivity. Defined.

(** X11.  Wrapping a valid text that leaves no tag unfinished in a pair of
    whitelisted tags, the opening one with or without attributes, gives a
    valid text. *)
Theorem validate_wrapped (tag attrs text : str) :
  tag ∈ ALLOWED_TAGS -> tag_parts [] tag attrs ->
  validate_telegram_html text = true -> closed_angles text = true ->
  validate_telegram_html (tag_text [] tag attrs ++ text ++ closing_tag tag) = true.
Proof.
  intros Htag Hparts Hv Hc. apply validate_run in Hv. apply validate_run.
  pose proof (match_tag_complete _ _ _ (text ++ closing_tag tag) Hparts) as Hm.
  pose proof (finditer_closing_tags [tag]) as Hclose.
  cbn [map concat] in Hclose. rewrite app_nil_r in Hclose.
  unfold tag_text in *. cbn [app] in *.
  rewrite finditer_cons, Hm, (finditer_app _ _ Hc), Hclose
    by (constructor; [exact Htag|constructor]).
  destruct (allowed_tag_shape tag Htag) as (_ & _ & Hlower).
  cbn [stack_run name]. rewrite Hlower.
  rewrite bool_decide_eq_true_2 by exact Htag. cbn [negb].
  unfold is_closing at 1. cbn [slash]. rewrite bool_decide_eq_false_2 by discriminate.
  rewrite stack_run_app.
  pose proof (stack_run_frame [tag] _ _ _ Hv) as Hframe.
  rewrite app_nil_r in Hframe. cbn [app]. rewrite Hframe.
  apply (stack_run_closing [tag]). constructor; [exact Htag|constructor].
Qed.

Lemma validate_wrapped_witness :
  validate_telegram_html
    (tag_text [] (py "a") (py " href=u") ++ py "<b>x</b>" ++ closing_tag (py "a"))
  = true.
Proof.
  apply validate_wrapped.
  - apply (bool_decide_unpack _). vm_compute. exact I.
  - constructor.
    + left. reflexivity.
    + discriminate.
    + repeat constructor.
    + right. exists 32%N, (py "href=u"). repeat split. repeat constructor.
  - reflexivity.
  - reflexivity.
Defined.

(** ** Texts with few tags *)

Lemma count_lt_app a b : count_lt (a ++ b) = count_lt a + count_lt b.
Proof. unfold count_lt. rewrite List.filter_app, length_app. reflexivity. Qed.

Lemma count_lt_take k s : count_lt (take k s) <= count_lt s.
Proof. rewrite <- (take_drop k s) at 2. rewrite count_lt_app. lia. Qed.

Lemma count_lt_concat_In p parts : In p parts -> count_lt p <= count_lt (concat parts).
Proof.
  induction parts as [|q parts IH]; [intros []|].
  cbn [concat]. rewrite count_lt_app. intros [->|Hin]; [lia|].
  specialize (IH Hin). lia.
Qed.

Lemma count_lt_trimmed part seg : trimmed_of part seg -> count_lt seg <= count_lt part.
Proof. intros (l & r & -> & _). rewrite !count_lt_app. lia. Qed.

(** Every match of the tag pattern starts at a [<] of its own. *)
Lemma finditer_count_bounded n : forall text,
  length text <= n -> length (finditer text) <= count_lt text.
Proof.
  induction n as [|n IH]; intros text Hlen.
  - destruct text; [cbn; lia|cbn in Hlen; lia].
  - destruct text as [|c text]; [cbn; lia|].
    rewrite finditer_cons.
    destruct (match_tag (c :: text)) as [[m rest]|] eqn:Hm.
    + pose proof (match_tag_shorter _ _ _ Hm) as Hshort.
      apply match_tag_sound in Hm. destruct Hm as (attrs & _ & Hw & Hs).
      rewrite Hs, Hw, count_lt_app. unfold tag_text.
      change (count_lt (LT :: slash m ++ name m ++ attrs ++ [GT]))
        with (S (count_lt (slash m ++ name m ++ attrs ++ [GT]))).
      cbn [length] in *. specialize (IH rest ltac:(lia)). lia.
    + cbn [length] in Hlen. specialize (IH text ltac:(lia)).
      change (c :: text) with ([c] ++ text). rewrite count_lt_app. lia.
Qed.

Lemma finditer_count text : length (finditer text) <= count_lt text.
Proof. apply (finditer_count_bounded (length text)). reflexivity. Qed.

Lemma open_tags_loop_length matches : forall open_tags,
  length (open_tags_loop matches open_tags) <= length open_tags + length matches.
Proof.
  induction matches as [|m matches IH]; intros open_tags; [cbn; lia|].
  cbn [open_tags_loop length].
  destruct (negb (bool_decide (lower (name m) ∈ ALLOWED_TAGS)));
    [specialize (IH open_tags); lia|].
  destruct (is_closing m && negb (bool_decide (open_tags = []))
            && bool_decide (last open_tags = Some (lower (name m)))).
  - specialize (IH (removelast open_tags)).
    destruct open_tags as [|t ts _] using rev_ind; [cbn in *; lia|].
    rewrite removelast_last in IH |- *. rewrite length_app. cbn [length]. lia.
  - destruct (negb (is_closing m)); [|specialize (IH open_tags); lia].
    specialize (IH (open_tags ++ [lower (name m)])).
    rewrite length_app in IH. cbn [length] in IH. lia.
Qed.

Lemma open_at_cut_count text max_length :
  length (open_at_cut text max_length) <= count_lt text.
Proof.
  unfold open_at_cut. destruct (truncated_prefix_take text max_length) as [k ->].
  pose proof (open_tags_loop_length (finditer (take k text)) []) as H1.
  pose proof (finditer_count (take k text)) as H2.
  pose proof (count_lt_take k text) as H3. cbn [length] in H1. lia.
Qed.

Lemma truncate_few_tags text max_length :
  (50 <= max_length)%Z -> count_lt text <= 6 ->
  within max_length (truncate_html text max_length).
Proof.
  intros Hmax Hcount. unfold within.
  destruct (Z.leb_spec (Z.of_nat (length text)) max_length) as [Hfit|Hover].
  { unfold truncate_html. apply Z.leb_le in Hfit. rewrite Hfit.
    apply Z.leb_le in Hfit. exact Hfit. }
  rewrite (truncate_html_cut text max_length Hover), !length_app.
  pose proof (truncated_prefix_length text max_length Hmax) as Hprefix.
  pose proof (closing_tags_length (rev (open_at_cut text max_length))) as Hclosing.
  rewrite length_rev in Hclosing.
  specialize (Hclosing (List.Forall_rev
    (open_tags_loop_allowed _ [] (List.Forall_nil _)))).
  pose proof (open_at_cut_count text max_length) as Hopen.
  change (length ELLIPSIS) with 3. lia.
Qed.

Lemma accumulate_count_lt max_length chunks :
  forall current parts current' parts',
    accumulate chunks max_length current parts = (current', parts') ->
    count_lt (concat parts') + count_lt current'
    <= count_lt (concat parts) + count_lt current + count_lt (concat chunks).
Proof.
  induction chunks as [|chunk chunks IH]; intros current parts current' parts' Hacc.
  - cbn in Hacc. injection Hacc as <- <-. lia.
  - cbn [accumulate] in Hacc. cbn [concat]. rewrite count_lt_app.
    destruct chunk as [|c chunk].
    { apply IH in Hacc. change (count_lt []) with 0. lia. }
    destruct (Z.of_nat (length current) + Z.of_nat (length (c :: chunk)) <=? max_length)%Z.
    + apply IH in Hacc. rewrite count_lt_app in Hacc. lia.
    + apply IH in Hacc. destruct current as [|d current].
      * change (count_lt []) with 0. lia.
      * rewrite concat_app, count_lt_app in Hacc. cbn [concat] in Hacc.
        rewrite app_nil_r in Hacc.
        pose proof (count_lt_trimmed _ _ (strip_trimmed (d :: current))). lia.
Qed.

Lemma split_parts_count_lt text max_length :
  Forall (fun part => count_lt part <= count_lt text) (split_parts text max_length).
Proof.
  unfold split_parts.
  destruct (accumulate (re_split_seed text) max_length [] []) as [current parts] eqn:Hacc.
  apply accumulate_count_lt in Hacc. rewrite re_split_seed_concat in Hacc.
  change (count_lt (concat [])) with 0 in Hacc. change (count_lt []) with 0 in Hacc.
  assert (Hparts : Forall (fun part => count_lt part <= count_lt text) parts).
  { apply List.Forall_forall. intros p Hp. apply count_lt_concat_In in Hp. lia. }
  destruct current as [|c current]; [exact Hparts|].
  apply Forall_app. split; [exact Hparts|]. constructor; [|constructor].
  pose proof (count_lt_trimmed _ _ (strip_trimmed (c :: current))). lia.
Qed.

Lemma split_few_tags text max_length :
  (50 <= max_length)%Z -> count_lt text <= 6 ->
  Forall (within max_length) (split_html_report text max_length).
Proof.
  intros Hmax Hcount. unfold split_html_report.
  destruct (Z.leb_spec (Z.of_nat (length text)) max_length) as [Hfit|Hover].
  { constructor; [exact Hfit|constructor]. }
  pose proof (split_parts_count_lt text max_length) as Hparts.
  destruct (split_parts text max_length) as [|p ps].
  { constructor; [|constructor]. apply truncate_few_tags; assumption. }
  apply Forall_map. eapply Forall_impl; [exact Hparts|].
  intros part Hpart. cbn beta in Hpart |- *.
  destruct (Z.leb_spec (Z.of_nat (length part)) max_length) as [Hp|Hp]; [exact Hp|].
  apply truncate_few_tags; [exact Hmax|lia].
Qed.

(** X12.  With a budget of at least 50, a text with at most six [<]
    characters is always cut to fit: [truncate_html] returns a text within
    the budget and every segment of [split_html_report] is within it. *)
Theorem few_tags_fit_budget (text : str) (max_length : Z) :
  (50 <= max_length)%Z -> count_lt text <= 6 ->
  within max_length (truncate_html text max_length)
  /\ Forall (within max_length) (split_html_report text max_length).
Proof.
  intros Hmax Hcount. split.
  - apply truncate_few_tags; assumption.
  - apply split_few_tags; assumption.
Qed.

Lemma few_tags_fit_budget_witness :
  within 60 (truncate_html (py "<b><i><u>" ++ repeat 120%N 100) 60)
  /\ Forall (within 60) (split_html_report (py "<b><i><u>" ++ repeat 120%N 100) 60).
Proof. apply few_tags_fit_budget; [lia|vm_compute; lia]. Defined.

(** * Properties of the handlers *)

(** ** Texts without seed markers *)

Lemma at_marker_head s : at_marker s = true -> exists rest, s = LT :: rest.
Proof.
  unfold at_marker. destruct (strip_prefix SEED_MARKER s) as [rest|] eqn:H; [|discriminate].
  apply strip_prefix_app in H. intros _. eexists. exact H.
Qed.

Lemma marker_free_cons c s : c <> LT -> marker_free s -> marker_free (c :: s).
Proof.
  intros Hc Hs [|k]; [|apply Hs].
  rewrite drop_0. destruct (at_marker (c :: s)) eqn:H; [|reflexivity].
  apply at_marker_head in H. destruct H as [rest [= -> _]]. congruence.
Qed.

Lemma marker_free_no_lt s tail :
  ~ In LT s -> marker_free tail -> marker_free (s ++ tail).
Proof.
  induction s as [|c s IH]; intros Hs Htail; [exact Htail|].
  cbn [app]. apply marker_free_cons.
  - intros ->. apply Hs. left. reflexivity.
  - apply IH; [|exact Htail]. intros H. apply Hs. right. exact H.
Qed.

Lemma marker_free_nil : marker_free [].
Proof. intros k. rewrite drop_nil. reflexivity. Qed.

Lemma split_inner_marker_free s : forall c,
  marker_free s -> split_inner (c :: s) = [c :: s].
Proof.
  induction s as [|d s IH]; intros c Hs.
  - reflexivity.
  - cbn [split_inner]. pose proof (Hs 0) as H0. rewrite drop_0 in H0. rewrite H0.
    change (match s with
            | [] => [[]]
            | c0 :: s' => _
            end) with (split_inner s).
    change (if at_marker s then [d] :: split_inner s
            else match split_inner s with
                 | [] => [[d]]
                 | piece :: pieces => (d :: piece) :: pieces
                 end) with (split_inner (d :: s)).
    rewrite (IH d); [reflexivity|]. intros k. apply (Hs (S k)).
Qed.

Lemma re_split_seed_marker_free s : marker_free s -> re_split_seed s = [s].
Proof.
  intros Hs. unfold re_split_seed. pose proof (Hs 0) as H0. rewrite drop_0 in H0.
  rewrite H0. destruct s as [|c s]; [reflexivity|].
  apply split_inner_marker_free. intros k. apply (Hs (S k)).
Qed.

(** ** Messages that can be sent *)

Lemma angles_alternate_no_lt s : ~ In LT s -> forall inside, angles_alternate inside s = true.
Proof.
  induction s as [|c s IH]; intros Hs inside; [reflexivity|]. cbn [angles_alternate].
  destruct (N.eqb_spec c LT) as [->|_]; [destruct Hs; left; reflexivity|].
  assert (Hs' : ~ In LT s) by (intros H; apply Hs; right; exact H).
  destruct (c =? GT)%N; apply IH, Hs'.
Qed.

Lemma self_contained_no_lt s : ~ In LT s -> self_contained s.
Proof.
  intros Hs. split; [apply validate_no_lt, Hs|].
  split; [apply closed_angles_no_lt, Hs|apply angles_alternate_no_lt, Hs].
Qed.

Lemma count_lt_no_lt s : ~ In LT s -> count_lt s = 0.
Proof.
  induction s as [|c s IH]; intros Hs; [reflexivity|].
  unfold count_lt in *. cbn [List.filter].
  destruct (N.eqb_spec LT c) as [<-|_]; [destruct Hs; left; reflexivity|].
  apply IH. intros H. apply Hs. right. exact H.
Qed.

Lemma marker_free_of_no_lt s : ~ In LT s -> marker_free s.
Proof.
  intros Hs. rewrite <- (app_nil_r s). apply marker_free_no_lt; [exact Hs|apply marker_free_nil].
Qed.

(** Self-contained pieces with at most six [<] in all give messages that can
    be sent. *)
Lemma split_sendable text :
  Forall self_contained (re_split_seed text) -> count_lt text <= 6 ->
  Forall sendable (split_html_report text 4000).
Proof.
  intros Hself Hcount. apply Forall_and. split.
  - apply split_segments_valid, Hself.
  - apply split_few_tags; [lia|exact Hcount].
Qed.

Lemma messages_sendable formatted :
  Forall self_contained (re_split_seed formatted) -> count_lt formatted <= 6 ->
  exists first rest,
    match split_html_report formatted 4000 with
    | first :: rest => Some (first, rest)
    | [] => None
    end = Some (first, rest)
    /\ Forall sendable (first :: rest).
Proof.
  intros Hself Hcount. pose proof (split_sendable formatted Hself Hcount) as H.
  destruct (split_html_report formatted 4000) as [|first rest] eqn:E.
  - unfold split_html_report in E.
    destruct (Z.of_nat (length formatted) <=? 4000)%Z; [discriminate|].
    destruct (split_parts formatted 4000); discriminate.
  - exists first, rest. split; [reflexivity|exact H].
Qed.

(** The error line: [Error: <b>] and [</b>] around escaped text. *)
Lemma error_body_self_contained e :
  ~ In LT e -> self_contained (py "<b>" ++ e ++ py "</b>").
Proof.
  intros He. split; [|split].
  - unfold validate_telegram_html.
    rewrite (finditer_app (py "<b>") _ eq_refl).
    rewrite (finditer_app e _ (closed_angles_no_lt e He)), (finditer_no_lt e He).
    vm_compute. reflexivity.
  - apply (closed_angles_app (py "<b>")); [reflexivity|].
    apply closed_angles_app; [apply closed_angles_no_lt, He|reflexivity].
  - unfold well_bracketed.
    change (angles_alternate false (e ++ py "</b>") = true).
    apply angles_alternate_app;
      [apply angles_alternate_no_lt, He|apply closed_angles_no_lt, He|discriminate|reflexivity].
Qed.

Lemma at_marker_not_lt c s : c <> LT -> at_marker (c :: s) = false.
Proof.
  intros Hc. destruct (at_marker (c :: s)) eqn:H; [|reflexivity].
  apply at_marker_head in H. destruct H as [rest [= -> _]]. congruence.
Qed.

(** Characters other than [<] in front of [t] join the first piece of [t],
    or make a piece of their own when [t] starts with the marker. *)
Lemma split_inner_prefix p : forall c t,
  ~ In LT p ->
  split_inner (c :: p ++ t)
  = if at_marker t then (c :: p) :: split_inner t
    else match split_inner t with
         | piece :: pieces => (c :: p ++ piece) :: pieces
         | [] => [c :: p]
         end.
Proof.
  induction p as [|d p IH]; intros c t Hp; [reflexivity|].
  assert (Hd : d <> LT) by (intros ->; apply Hp; left; reflexivity).
  assert (Hp' : ~ In LT p) by (intros H; apply Hp; right; exact H).
  change (split_inner (c :: (d :: p) ++ t))
    with (if at_marker (d :: p ++ t) then [c] :: split_inner (d :: p ++ t)
          else match split_inner (d :: p ++ t) with
               | piece :: pieces => (c :: piece) :: pieces
               | [] => [[c]]
               end).
  rewrite (at_marker_not_lt d _ Hd), (IH d t Hp').
  destruct (at_marker t); [reflexivity|].
  destruct (split_inner t); reflexivity.
Qed.

Lemma error_line_pieces e :
  ~ In LT e ->
  Forall self_contained (re_split_seed (py "Error: <b>" ++ e ++ py "</b>")).
Proof.
  intros He.
  assert (Hfree : marker_free (py "b>" ++ e ++ py "</b>")).
  { apply (marker_free_cons 98); [discriminate|].
    apply (marker_free_cons 62); [discriminate|].
    apply marker_free_no_lt; [exact He|].
    intros [|[|[|[|[|k]]]]]; reflexivity. }
  pose proof (split_inner_marker_free _ LT Hfree) as Hinner.
  pose proof (error_body_self_contained e He) as Hbody.
  assert (Hhead : self_contained (py "Error: ")) by (repeat split).
  change (py "<b>" ++ e ++ py "</b>") with (LT :: py "b>" ++ e ++ py "</b>") in Hbody.
  change (py "Error: <b>" ++ e ++ py "</b>")
    with (69%N :: py "rror: " ++ LT :: py "b>" ++ e ++ py "</b>").
  set (body := py "b>" ++ e ++ py "</b>") in *.
  unfold re_split_seed.
  rewrite at_marker_not_lt by discriminate.
  rewrite split_inner_prefix
    by (intros H; vm_compute in H; repeat destruct H as [H|H]; try discriminate H; exact H).
  destruct (at_marker (LT :: body)).
  - rewrite Hinner. constructor; [exact Hhead|]. constructor; [exact Hbody|constructor].
  - rewrite Hinner. constructor; [|constructor].
    apply (self_contained_app (py "Error: ")); assumption.
Qed.

Lemma error_line_count e : ~ In LT e -> count_lt (py "Error: <b>" ++ e ++ py "</b>") <= 6.
Proof.
  intros He. rewrite !count_lt_app, (count_lt_no_lt e He).
  change (count_lt (py "Error: <b>")) with 1. change (count_lt (py "</b>")) with 1. lia.
Qed.

(** X13.  An error of the processor is always delivered: for a report with
    the key ["error"], whatever its value, no call raises, [parts[0]]
    exists, and every message passes the validator and has at most 4000
    characters. *)
Theorem error_report_sendable (report : gmap string pyval) (error : pyval) :
  report !! "error"%string = Some error ->
  exists first rest,
    report_messages report = Some (first, rest)
    /\ Forall sendable (first :: rest).
Proof.
  intros He. unfold report_messages. rewrite (format_error report error He).
  cbn [mbind option_bind].
  pose proof (html_escape_no_angles (py_str error)) as [Hlt _].
  apply messages_sendable; [apply error_line_pieces, Hlt|apply error_line_count, Hlt].
Qed.

Lemma error_report_sendable_witness :
  exists first rest,
    report_messages
      {[ "error"%string := PyStr (py "Seed #1 <failed>"); "processed_entries"%string := PyInt 0 ]}
    = Some (first, rest)
    /\ Forall sendable (first :: rest).
Proof.
  apply (error_report_sendable _ (PyStr (py "Seed #1 <failed>"))).
  vm_compute. reflexivity.
Defined.

(** ** The escaped fallback *)

(** A text that is one piece and over the budget gives one segment: the text
    stripped, and truncated when still over the budget. *)
Lemma split_single_piece text max_length :
  re_split_seed text = [text] ->
  (0 <= max_length < Z.of_nat (length text))%Z ->
  split_html_report text max_length
  = [if (Z.of_nat (length (strip text)) <=? max_length)%Z then strip text
     else truncate_html (strip text) max_length].
Proof.
  intros Hpieces Hlen. unfold split_html_report, split_parts.
  destruct (Z.leb_spec (Z.of_nat (length text)) max_length) as [|_]; [lia|].
  rewrite Hpieces. destruct text as [|c text]; [cbn [length] in Hlen; lia|].
  cbn [accumulate].
  destruct (Z.leb_spec (Z.of_nat (length (@nil N)) + Z.of_nat (length (c :: text))) max_length)
    as [H|_]; [cbn [length] in *; lia|].
  reflexivity.
Qed.

Lemma truncate_no_lt text max_length :
  (50 <= max_length < Z.of_nat (length text))%Z ->
  ~ In LT text ->
  truncate_html text max_length = take (Z.to_nat (max_length - 50)) text ++ ELLIPSIS.
Proof.
  intros Hlen Hlt.
  rewrite (truncate_html_cut text max_length) by lia. unfold open_at_cut.
  assert (Hprefix : truncated_prefix text max_length
                    = take (Z.to_nat (max_length - 50)) text).
  { unfold truncated_prefix, rfind.
    rewrite (rfind_char_absent LT) by (intros H; apply Hlt, (In_take _ _ _ H)).
    pose proof (rfind_char_bounds GT
                  (take (slice_end (length text) (max_length - 50)) text)) as Hb.
    destruct (Z.gtb_spec (-1)
                (rfind_char GT (take (slice_end (length text) (max_length - 50)) text)));
      [lia|].
    f_equal. unfold slice_end.
    destruct (Z.ltb_spec (max_length - 50) 0); [lia|].
    destruct (Z.ltb_spec (max_length - 50) 0); lia. }
  rewrite Hprefix.
  rewrite (finditer_no_lt (take _ text)) by (intros H; apply Hlt, (In_take _ _ _ H)).
  cbn [open_tags_loop rev map concat]. rewrite app_nil_r. reflexivity.
Qed.

Lemma trimmed_no_lt part seg : trimmed_of part seg -> ~ In LT part -> ~ In LT seg.
Proof.
  intros (l & r & -> & _) Hpart Hseg. apply Hpart.
  apply in_or_app. right. apply in_or_app. left. exact Hseg.
Qed.

Lemma format_escaped (report : gmap string pyval) raw_report :
  report !! "error"%string = None ->
  report !! "report"%string = Some (PyStr raw_report) ->
  validate_telegram_html (sanitize_telegram_html raw_report) = false ->
  format_process_report report = Some (html_escape raw_report).
Proof.
  intros He Hr Hv. unfold format_process_report.
  rewrite !in_dom_lookup, He, Hr. cbn. rewrite Hv. reflexivity.
Qed.

(** X14.  The escaped fallback is sent as one message: when the sanitized
    report fails the validator, the handler sends exactly one message, which
    passes the validator and has at most 4000 characters.  It is the escaped
    report when that has at most 4000 characters; otherwise the escaped
    report stripped, and cut to its first 3950 characters and [...] when
    still over 4000: the rest of the report is never sent. *)
Theorem escaped_report_single_message (report : gmap string pyval) (raw_report : str) :
  report !! "error"%string = None ->
  report !! "report"%string = Some (PyStr raw_report) ->
  validate_telegram_html (sanitize_telegram_html raw_report) = false ->
  exists first,
    report_messages report = Some (first, [])
    /\ sendable first
    /\ (within 4000 (html_escape raw_report) -> first = html_escape raw_report)
    /\ (~ within 4000 (html_escape raw_report) ->
        within 4000 (strip (html_escape raw_report)) ->
        first = strip (html_escape raw_report))
    /\ (~ within 4000 (strip (html_escape raw_report)) ->
        first = take 3950 (strip (html_escape raw_report)) ++ ELLIPSIS).
Proof.
  intros He Hr Hv. unfold report_messages.
  rewrite (format_escaped report raw_report He Hr Hv). cbn [mbind option_bind].
  pose proof (html_escape_no_angles raw_report) as [Hlt _].
  set (formatted := html_escape raw_report) in *.
  pose proof (strip_trimmed formatted) as Htrim.
  pose proof (trimmed_of_length _ _ Htrim) as Hshort.
  pose proof (trimmed_no_lt _ _ Htrim Hlt) as Hlt'.
  unfold sendable, within.
  destruct (Z.leb_spec (Z.of_nat (length formatted)) 4000) as [Hfit|Hover].
  { unfold split_html_report. apply Z.leb_le in Hfit. rewrite Hfit.
    apply Z.leb_le in Hfit. exists formatted.
    split; [reflexivity|]. split; [split; [apply validate_no_lt, Hlt|exact Hfit]|].
    split; [reflexivity|]. split; intros; lia. }
  rewrite split_single_piece
    by (try apply re_split_seed_marker_free, marker_free_of_no_lt, Hlt; lia).
  destruct (Z.leb_spec (Z.of_nat (length (strip formatted))) 4000) as [Hfit'|Hover'].
  - exists (strip formatted).
    split; [reflexivity|]. split; [split; [apply validate_no_lt, Hlt'|exact Hfit']|].
    split; [intros; lia|]. split; [reflexivity|intros; lia].
  - rewrite (truncate_no_lt (strip formatted) 4000) by (try exact Hlt'; lia).
    change (Z.to_nat (4000 - 50)) with 3950.
    exists (take 3950 (strip formatted) ++ ELLIPSIS).
    split; [reflexivity|]. split.
    + split.
      * apply validate_no_lt. intros H. apply in_app_or in H. destruct H as [H|H].
        -- apply Hlt', (In_take _ _ _ H).
        -- vm_compute in H. repeat destruct H as [H|H]; try discriminate H; exact H.
      * rewrite length_app, length_take. change (length ELLIPSIS) with 3. lia.
    + split; [intros; lia|]. split; [intros; lia|reflexivity].
Qed.

Lemma escaped_report_single_message_witness :
  exists first,
    report_messages {[ "report"%string := PyStr (py "<b>draft") ]} = Some (first, [])
    /\ sendable first
    /\ (within 4000 (html_escape (py "<b>draft")) -> first = html_escape (py "<b>draft"))
    /\ (~ within 4000 (html_escape (py "<b>draft")) ->
        within 4000 (strip (html_escape (py "<b>draft"))) ->
        first = strip (html_escape (py "<b>draft")))
    /\ (~ within 4000 (strip (html_escape (py "<b>draft"))) ->
        first = take 3950 (strip (html_escape (py "<b>draft"))) ++ ELLIPSIS).
Proof.
  apply escaped_report_single_message; vm_compute; reflexivity.
Defined.

(** * Properties of the slug *)

Lemma lstrip_char_spec c s :
  exists l, s = l ++ Slug.lstrip_char c s
            /\ head (Slug.lstrip_char c s) <> Some c.
Proof.
  induction s as [|d s (l & Hs & Hhead)].
  - exists []. split; [reflexivity|discriminate].
  - cbn [Slug.lstrip_char]. destruct (N.eqb_spec d c) as [->|Hd].
    + exists (c :: l). split; [cbn [app]; congruence|exact Hhead].
    + exists []. split; [reflexivity|]. cbn. congruence.
Qed.

(** [strip] returns a part of the text that neither starts nor ends with
    the stripped character. *)
Lemma strip_char_spec c s :
  (exists l r, s = l ++ Slug.strip_char c s ++ r)
  /\ head (Slug.strip_char c s) <> Some c
  /\ last (Slug.strip_char c s) <> Some c.
Proof.
  unfold Slug.strip_char.
  destruct (lstrip_char_spec c s) as (l & Hl & Hhead).
  set (t := Slug.lstrip_char c s) in *.
  destruct (lstrip_char_spec c (rev t)) as (r & Hr & Hlast).
  set (x := Slug.lstrip_char c (rev t)) in *.
  assert (Ht : t = rev x ++ rev r).
  { rewrite <- rev_app_distr, <- Hr, rev_involutive. reflexivity. }
  split; [|split].
  - exists l, (rev r). rewrite <- Ht. exact Hl.
  - destruct (rev x) as [|h y] eqn:E; [discriminate|].
    rewrite Ht in Hhead. cbn in Hhead |- *. exact Hhead.
  - destruct x as [|h x']; [discriminate|].
    cbn [rev]. rewrite last_snoc. exact Hlast.
Qed.

Lemma sub_runs_chars (Q : N -> Prop) cls repl s :
  Forall Q repl ->
  Forall (fun c => cls c = false -> Q c) s ->
  forall in_run, Forall Q (Slug.sub_runs cls repl in_run s).
Proof.
  intros Hrepl. induction 1 as [|c s Hc _ IH]; intros in_run; [constructor|].
  cbn [Slug.sub_runs]. destruct (cls c).
  - apply Forall_app. split; [destruct in_run; [constructor|exact Hrepl]|apply IH].
  - constructor; [apply Hc; reflexivity|apply IH].
Qed.

(** After [-+] is replaced by one dash, no two dashes are left in a row. *)
Lemma sub_runs_single_dashes s : forall in_run,
  single_dashes (Slug.sub_runs (fun c => (c =? Slug.DASH)%N) [Slug.DASH] in_run s) = true
  /\ (in_run = true ->
      head (Slug.sub_runs (fun c => (c =? Slug.DASH)%N) [Slug.DASH] in_run s)
      <> Some Slug.DASH).
Proof.
  induction s as [|c s IH]; intros in_run.
  - split; [reflexivity|discriminate].
  - cbn [Slug.sub_runs]. destruct (N.eqb_spec c Slug.DASH) as [->|Hc].
    + destruct (IH true) as [Hsingle Hhead]. specialize (Hhead eq_refl).
      destruct in_run; cbn [app]; [split; [exact Hsingle|intros _; exact Hhead]|].
      split; [|discriminate]. cbn [single_dashes]. rewrite Hsingle, andb_true_r.
      destruct (Slug.sub_runs _ _ true s) as [|d out]; [reflexivity|].
      destruct (N.eqb_spec d Slug.DASH) as [->|_]; [destruct Hhead; reflexivity|reflexivity].
    + destruct (IH false) as [Hsingle _]. split.
      * cbn [single_dashes]. rewrite Hsingle, andb_true_r.
        destruct (N.eqb_spec c Slug.DASH); [contradiction|reflexivity].
      * intros _. cbn. congruence.
Qed.

Lemma single_dashes_app_r a b : single_dashes (a ++ b) = true -> single_dashes b = true.
Proof.
  induction a as [|c a IH]; [auto|]. cbn [app single_dashes].
  intros H. apply andb_true_iff in H. apply IH, H.
Qed.

Lemma single_dashes_app_l a b : single_dashes (a ++ b) = true -> single_dashes a = true.
Proof.
  induction a as [|c a IH]; [reflexivity|]. cbn [app single_dashes].
  intros H. apply andb_true_iff in H. destruct H as [Hc H].
  rewrite (IH H), andb_true_r.
  destruct a as [|d a]; [|exact Hc].
  destruct (c =? Slug.DASH)%N; reflexivity.
Qed.

(** X15.  The slug of a title is safe as a file name part: it has at most 80
    characters; each of them is a dash or an alphanumeric character that is
    neither white space nor an underscore; no two dashes stand in a row; and
    it neither starts nor ends with a dash.  This holds whatever the
    interpreter's tables for [str.isalnum] and [str.lower] are. *)
Theorem slugify_safe (isalnum : N -> bool) (str_lower : str -> str) (title : str) :
  let slug := Slug._slugify isalnum str_lower title in
  length slug <= 80
  /\ Forall (fun c => c = Slug.DASH
                      \/ (isalnum c = true /\ is_space c = false /\ c <> Slug.UNDERSCORE))
            slug
  /\ single_dashes slug = true
  /\ head slug <> Some Slug.DASH
  /\ last slug <> Some Slug.DASH.
Proof.
  cbv zeta. unfold Slug._slugify.
  set (filtered := List.filter _ (strip (str_lower title))).
  set (dashed := Slug.sub_runs _ [Slug.DASH] false filtered).
  set (collapsed := Slug.sub_runs _ [Slug.DASH] false dashed).
  destruct (strip_char_spec Slug.DASH (take 80 collapsed)) as ((l & r & Hinfix) & Hhead & Hlast).
  set (slug := Slug.strip_char Slug.DASH (take 80 collapsed)) in *.
  set (Q := fun c => c = Slug.DASH
                     \/ (isalnum c = true /\ is_space c = false /\ c <> Slug.UNDERSCORE)).
  assert (Hdashed : Forall Q dashed).
  { apply sub_runs_chars; [constructor; [left; reflexivity|constructor]|].
    apply List.Forall_forall. intros c Hc Hcls.
    apply filter_In in Hc. destruct Hc as [_ Hc].
    apply orb_false_iff in Hcls. destruct Hcls as [Hsp Hus].
    rewrite Hsp, orb_false_r in Hc. unfold Slug.is_word in Hc. rewrite Hus, orb_false_r in Hc.
    apply orb_true_iff in Hc. destruct Hc as [Hc|Hc].
    - right. split; [exact Hc|]. split; [exact Hsp|]. apply N.eqb_neq, Hus.
    - left. apply N.eqb_eq, Hc. }
  assert (Hcollapsed : Forall Q collapsed).
  { apply sub_runs_chars; [constructor; [left; reflexivity|constructor]|].
    eapply Forall_impl; [exact Hdashed|]. auto. }
  assert (Htake : Forall Q (take 80 collapsed) /\ single_dashes (take 80 collapsed) = true).
  { split.
    - rewrite <- (take_drop 80 collapsed) in Hcollapsed. apply Forall_app in Hcollapsed.
      apply Hcollapsed.
    - destruct (sub_runs_single_dashes dashed false) as [Hsingle _].
      fold collapsed in Hsingle. rewrite <- (take_drop 80 collapsed) in Hsingle.
      apply single_dashes_app_l in Hsingle. exact Hsingle. }
  destruct Htake as [Hchars Hsingle]. rewrite Hinfix in Hchars, Hsingle.
  split; [|split; [|split; [|split]]].
  - assert (Hlen : length (take 80 collapsed) <= 80) by (rewrite length_take; lia).
    rewrite Hinfix, !length_app in Hlen. lia.
  - apply Forall_app in Hchars. destruct Hchars as [_ Hchars].
    apply Forall_app in Hchars. apply Hchars.
  - apply single_dashes_app_r in Hsingle. apply single_dashes_app_l in Hsingle. exact Hsingle.
  - exact Hhead.
  - exact Hlast.
Qed.

(** * Properties of the dismissed seeds *)

Lemma union_absorb_key (dismissed keys : gset str) key :
  key ∈ dismissed -> dismissed ∪ ({[ key ]} ∪ keys) = dismissed ∪ keys.
Proof.
  intros Hkey. rewrite (assoc_L (∪)). f_equal.
  rewrite (comm_L (∪)). apply subseteq_union_1_L, singleton_subseteq_l, Hkey.
Qed.

Lemma size_union_le (X Y : gset str) : size (X ∪ Y) <= size X + size Y.
Proof.
  rewrite size_union_alt.
  assert (H : size (Y ∖ X) <= size Y)
    by (apply subseteq_size, subseteq_difference_l; reflexivity).
  lia.
Qed.

Lemma dismiss_loop_spec seeds : forall dismissed count,
  dismiss_loop seeds dismissed count
  = (dismissed ∪ list_to_set (map seed_key seeds),
     (count + Z.of_nat (size (dismissed ∪ list_to_set (map seed_key seeds)))
      - Z.of_nat (size dismissed))%Z).
Proof.
  induction seeds as [|s seeds IH]; intros dismissed count.
  - cbn [dismiss_loop map list_to_set]. rewrite (right_id_L ∅ (∪)). f_equal. lia.
  - cbn [dismiss_loop map list_to_set].
    destruct (decide (seed_key s ∉ dismissed)) as [Hnew|Hold].
    + rewrite bool_decide_eq_true_2 by exact Hnew. rewrite IH.
      rewrite <- (assoc_L (∪)). f_equal.
      rewrite (size_union dismissed {[seed_key s]})
        by (apply disjoint_singleton_r, Hnew).
      rewrite size_singleton. lia.
    + rewrite bool_decide_eq_false_2 by exact Hold. rewrite IH.
      apply dec_stable in Hold. rewrite (union_absorb_key _ _ _ Hold). reflexivity.
Qed.

(** X16.  [dismiss_seeds] adds the keys of the given seeds to the dismissed
    set and returns by how much the set has grown, a key given twice or
    dismissed before counting for nothing; dismissing the same seeds again
    changes nothing and returns 0. *)
Theorem dismiss_seeds_counts_new_keys (seeds : list seed) (dismissed : gset str) :
  let '(dismissed', count) := dismiss_seeds seeds dismissed in
  dismissed' = dismissed ∪ list_to_set (map seed_key seeds)
  /\ count = (Z.of_nat (size dismissed') - Z.of_nat (size dismissed))%Z
  /\ (0 <= count <= Z.of_nat (length seeds))%Z
  /\ dismiss_seeds seeds dismissed' = (dismissed', 0%Z).
Proof.
  unfold dismiss_seeds. rewrite !dismiss_loop_spec.
  set (keys := list_to_set (map seed_key seeds) : gset str).
  split; [reflexivity|]. split; [lia|]. split.
  - assert (H1 : size dismissed <= size (dismissed ∪ keys))
      by (apply subseteq_size, union_subseteq_l).
    assert (H2 : size (dismissed ∪ keys) <= size dismissed + size keys)
      by apply size_union_le.
    assert (H3 : size keys <= length seeds).
    { subst keys. rewrite <- (length_map seed_key seeds).
      generalize (map seed_key seeds). intros l.
      induction l as [|k l IHl].
      - cbn [list_to_set length]. rewrite size_empty. lia.
      - cbn [list_to_set length].
        pose proof (size_union_le {[k]} (list_to_set l)) as H.
        rewrite size_singleton in H. lia. }
    lia.
  - rewrite <- (assoc_L (∪)), (idemp_L (∪)). f_equal. lia.
Qed.

(** X17.  After [dismiss_seeds] the active seeds are those that were active
    before and whose key is not one of the dismissed keys: a dismissed seed
    is no longer listed, and neither is any other seed of the same week and
    number. *)
Theorem dismissed_seeds_hidden (seeds all_seeds : list seed) (dismissed : gset str) :
  let '(dismissed', _) := dismiss_seeds seeds dismissed in
  forall s,
    In s (active_seeds all_seeds dismissed')
    <-> In s (active_seeds all_seeds dismissed)
        /\ ~ In (seed_key s) (map seed_key seeds).
Proof.
  unfold dismiss_seeds. rewrite dismiss_loop_spec. intros s.
  unfold active_seeds. rewrite !filter_In, !bool_decide_eq_true.
  rewrite not_elem_of_union, elem_of_list_to_set, list_elem_of_In.
  tauto.
Qed.

(** * Properties of the authorization middleware *)

(** X18.  Unless [allow_all_users] is set, the handler is called exactly when
    the allow list is not empty and the sender read from the update is on
    it: the sender of the message when the update has a message, otherwise
    the sender of the callback query.  A user who is not on the list is never
    served; an update in which no sender is found (a message without
    [from_user], or an update with neither message nor callback query) is
    served whenever the list is not empty. *)
Theorem auth_middleware_decision (settings : Auth.Settings) (event : Auth.Update) :
  Auth.allow_all_users settings = false ->
  (Auth.auth_middleware settings event = true
   <-> Auth.allowed_user_ids settings <> []
       /\ match Auth.message event with
          | Some m =>
              forall u, Auth.from_user m = Some u ->
                        In (Auth.id u) (Auth.allowed_user_ids settings)
          | None =>
              forall q, Auth.callback_query event = Some q ->
                        In (Auth.id (Auth.callback_from_user q))
                           (Auth.allowed_user_ids settings)
          end).
Proof.
  intros Hall. unfold Auth.auth_middleware. rewrite Hall.
  destruct (decide (Auth.allowed_user_ids settings = [])) as [Hnil|Hnil].
  { rewrite bool_decide_eq_true_2 by exact Hnil.
    split; [discriminate|]. intros [H _]. contradiction. }
  rewrite bool_decide_eq_false_2 by exact Hnil.
  assert (Hdec : forall u,
    (if bool_decide (Auth.id u ∉ Auth.allowed_user_ids settings) then false else true) = true
    <-> In (Auth.id u) (Auth.allowed_user_ids settings)).
  { intros u. rewrite <- list_elem_of_In.
    destruct (decide (Auth.id u ∈ Auth.allowed_user_ids settings)) as [Hin|Hout].
    - rewrite bool_decide_eq_false_2 by (intros H; exact (H Hin)). tauto.
    - rewrite bool_decide_eq_true_2 by exact Hout. split; [discriminate|contradiction]. }
  destruct (Auth.message event) as [m|].
  - destruct (Auth.from_user m) as [u|].
    + rewrite Hdec. split.
      * intros Hin. split; [exact Hnil|]. intros u' [= <-]. exact Hin.
      * intros [_ H]. apply H. reflexivity.
    + split; [|reflexivity]. intros _. split; [exact Hnil|]. intros u [=].
  - destruct (Auth.callback_query event) as [q|].
    + rewrite Hdec. split.
      * intros Hin. split; [exact Hnil|]. intros q' [= <-]. exact Hin.
      * intros [_ H]. apply H. reflexivity.
    + split; [|reflexivity]. intros _. split; [exact Hnil|]. intros q [=].
Qed.

Lemma auth_middleware_decision_witness :
  Auth.auth_middleware (Auth.MkSettings false [7%Z])
    (Auth.MkUpdate (Some (Auth.MkMessage (Some (Auth.MkUser 7)))) None) = true.
Proof.
  apply auth_middleware_decision; [reflexivity|].
  split; [discriminate|]. intros u [= <-]. left. reflexivity.
Defined.

(** * Properties of the front matter *)

Lemma find_at_skip c s i :
  c <> 45%N ->
  FrontMatter.find_at FrontMatter.FENCE (c :: s) i
  = FrontMatter.find_at FrontMatter.FENCE s (i + 1).
Proof.
  intros Hc. cbn [FrontMatter.find_at FrontMatter.FENCE strip_prefix].
  destruct (N.eqb_spec 45 c) as [<-|_]; [contradiction|reflexivity].
Qed.

Lemma find_at_skip_dash c s i :
  c <> 45%N ->
  FrontMatter.find_at FrontMatter.FENCE (45%N :: c :: s) i
  = FrontMatter.find_at FrontMatter.FENCE (c :: s) (i + 1).
Proof.
  intros Hc. cbn [FrontMatter.find_at FrontMatter.FENCE strip_prefix].
  change (45 =? 45)%N with true. cbv iota.
  destruct (N.eqb_spec 45 c) as [<-|_]; [contradiction|reflexivity].
Qed.

Lemma find_at_found rest i :
  FrontMatter.find_at FrontMatter.FENCE (45%N :: 45%N :: 45%N :: rest) i = i.
Proof. reflexivity. Qed.

(** A text without the fence, followed by a character that is not a dash,
    is passed over by the search. *)
Lemma find_at_skip_text text : forall c rest i,
  contains FrontMatter.FENCE text = false -> c <> 45%N ->
  FrontMatter.find_at FrontMatter.FENCE (text ++ c :: rest) i
  = FrontMatter.find_at FrontMatter.FENCE (c :: rest) (i + Z.of_nat (length text)).
Proof.
  induction text as [|d text IH]; intros c rest i Htext Hc.
  - cbn [app length]. f_equal. lia.
  - cbn [contains] in Htext.
    destruct (strip_prefix FrontMatter.FENCE (d :: text)) eqn:Hd; [discriminate|].
    cbn [app].
    assert (Hnone : strip_prefix FrontMatter.FENCE (d :: text ++ c :: rest) = None).
    { cbn [FrontMatter.FENCE strip_prefix] in Hd |- *.
      destruct (45 =? d)%N; [|reflexivity].
      destruct text as [|e text]; cbn [app].
      - destruct (N.eqb_spec 45 c) as [<-|_]; [contradiction|reflexivity].
      - destruct (45 =? e)%N; [|reflexivity].
        destruct text as [|f text]; cbn [app].
        + destruct (N.eqb_spec 45 c) as [<-|_]; [contradiction|reflexivity].
        + destruct (45 =? f)%N; [discriminate|reflexivity]. }
    replace (i + Z.of_nat (length (d :: text)))%Z
      with (i + 1 + Z.of_nat (length text))%Z by (cbn [length]; lia).
    rewrite <- (IH c rest (i + 1)%Z Htext Hc).
    cbn [FrontMatter.find_at]. rewrite Hnone. reflexivity.
Qed.

Lemma strip_newlines s :
  strip (FrontMatter.NEWLINE :: FrontMatter.NEWLINE :: s) = strip s.
Proof. reflexivity. Qed.

Lemma saved_text_find type_name iso_date week_label content :
  contains FrontMatter.FENCE type_name = false ->
  contains FrontMatter.FENCE iso_date = false ->
  contains FrontMatter.FENCE week_label = false ->
  FrontMatter.find FrontMatter.FENCE
    (FrontMatter.saved_text type_name iso_date week_label content) 3
  = Z.of_nat (25 + length iso_date + length type_name + length week_label).
Proof.
  intros Htype Hdate Hweek. unfold FrontMatter.find, FrontMatter.saved_text.
  repeat match goal with
         | |- context [py ?s] =>
             let v := eval vm_compute in (py s) in change (py s) with v
         end.
  unfold FrontMatter.NEWLINE. cbn [app FrontMatter.FENCE length Nat.leb drop].
  rewrite !find_at_skip by discriminate.
  rewrite find_at_skip_text by (try exact Hdate; discriminate).
  rewrite !find_at_skip by discriminate.
  rewrite find_at_skip_text by (try exact Htype; discriminate).
  rewrite !find_at_skip by discriminate.
  rewrite find_at_skip_text by (try exact Hweek; discriminate).
  rewrite !find_at_skip by discriminate.
  rewrite find_at_found. lia.
Qed.

Lemma saved_text_strip type_name iso_date week_label content :
  contains FrontMatter.FENCE type_name = false ->
  contains FrontMatter.FENCE iso_date = false ->
  contains FrontMatter.FENCE week_label = false ->
  FrontMatter.strip_frontmatter
    (FrontMatter.saved_text type_name iso_date week_label content)
  = strip content.
Proof.
  intros Htype Hdate Hweek. unfold FrontMatter.strip_frontmatter.
  rewrite (saved_text_find _ _ _ content Htype Hdate Hweek).
  change (FrontMatter.startswith FrontMatter.FENCE
            (FrontMatter.saved_text type_name iso_date week_label content)) with true.
  cbv iota.
  destruct (Z.eqb_spec
              (Z.of_nat (25 + length iso_date + length type_name + length week_label))
              (-1)) as [H|_]; [lia|].
  cbn [negb]. rewrite <- (strip_newlines content). f_equal.
  unfold FrontMatter.saved_text.
  repeat match goal with
         | |- context [py ?s] =>
             let v := eval vm_compute in (py s) in change (py s) with v
         end.
  set (n := Z.to_nat _).
  assert (Hn : n = length (FrontMatter.FENCE ++ [FrontMatter.NEWLINE]
                           ++ [100; 97; 116; 101; 58; 32]%N ++ iso_date
                           ++ [FrontMatter.NEWLINE]
                           ++ [116; 121; 112; 101; 58; 32]%N ++ type_name
                           ++ [FrontMatter.NEWLINE]
                           ++ [119; 101; 101; 107; 58; 32]%N ++ week_label
                           ++ [FrontMatter.NEWLINE] ++ FrontMatter.FENCE)).
  { subst n. rewrite !length_app. cbn [length FrontMatter.FENCE]. lia. }
  rewrite Hn. clear Hn n.
  match goal with
  | |- drop (length ?a) ?t = ?b =>
      replace t with (a ++ b) by (app_norm; reflexivity)
  end.
  apply drop_app_length.
Qed.

(** X19.  What is saved is read back: for a date and a week label that do
    not contain [---], taking the front matter off the text written by
    [_save_content_seeds] or [_save_content_plan] gives the saved content
    stripped, as [_extract_seed_titles] and [get_current_plan] read it. *)
Theorem frontmatter_round_trip (iso_date week_label content : str) :
  contains FrontMatter.FENCE iso_date = false ->
  contains FrontMatter.FENCE week_label = false ->
  FrontMatter.strip_frontmatter (FrontMatter.seeds_text iso_date week_label content)
  = strip content
  /\ FrontMatter.strip_frontmatter (FrontMatter.plan_text iso_date week_label content)
     = strip content.
Proof.
  intros Hdate Hweek. split; apply saved_text_strip; auto.
Qed.

Lemma frontmatter_round_trip_witness :
  FrontMatter.strip_frontmatter
    (FrontMatter.seeds_text (py "2026-02-09") (py "2026-W07") (py "Seed #1: a - b  "))
  = strip (py "Seed #1: a - b  ")
  /\ FrontMatter.strip_frontmatter
       (FrontMatter.plan_text (py "2026-02-09") (py "2026-W07") (py "Seed #1: a - b  "))
     = strip (py "Seed #1: a - b  ").
Proof. apply frontmatter_round_trip; reflexivity. Defined.

(** * The contract of the chunker *)

Lemma truncate_cut_and_closed text max_length limit :
  (50 <= max_length)%Z ->
  (max_length < Z.of_nat (length text))%Z ->
  count_lt text <= limit ->
  cut_and_closed max_length limit (truncate_html text max_length).
Proof.
  intros Hmax Hover Hlimit.
  exists (truncated_prefix text max_length), (rev (open_at_cut text max_length)).
  pose proof (truncated_prefix_length text max_length Hmax) as Hprefix.
  pose proof (open_at_cut_count text max_length) as Hopen.
  assert (Hallowed : Forall (fun tag => tag ∈ ALLOWED_TAGS)
                            (rev (open_at_cut text max_length))).
  { apply List.Forall_rev. unfold open_at_cut.
    apply open_tags_loop_allowed. constructor. }
  pose proof (closing_tags_length _ Hallowed) as Hclosing.
  rewrite length_rev in *.
  split; [apply truncate_html_cut, Hover|]. split; [exact Hprefix|].
  split; [exact Hallowed|]. split; [lia|].
  rewrite (truncate_html_cut text max_length Hover), !length_app.
  change (length ELLIPSIS) with 3. lia.
Qed.

Lemma split_segments_cut text max_length :
  (50 <= max_length)%Z ->
  Forall (fun seg => within max_length seg
                     \/ cut_and_closed max_length (count_lt text) seg)
         (split_html_report text max_length).
Proof.
  intros Hmax. unfold split_html_report.
  destruct (Z.leb_spec (Z.of_nat (length text)) max_length) as [Hfit|Hover].
  { constructor; [left; exact Hfit|constructor]. }
  pose proof (split_parts_count_lt text max_length) as Hparts.
  destruct (split_parts text max_length) as [|p ps].
  { constructor; [|constructor]. right.
    apply truncate_cut_and_closed; [exact Hmax|exact Hover|reflexivity]. }
  apply Forall_map. eapply Forall_impl; [exact Hparts|].
  intros part Hpart. cbn beta in Hpart |- *.
  destruct (Z.leb_spec (Z.of_nat (length part)) max_length) as [Hp|Hp];
    [left; exact Hp|].
  right. apply truncate_cut_and_closed; assumption.
Qed.

(** C4 (amended).  When every piece of the text, cut at the seed markers,
    is self-contained, every segment passes the validator, truncated or
    not.  With a budget of at least 50, every segment is within the budget or
    is a truncated part: at most [max_length - 50] characters kept, the
    ellipsis, and the closing tags of the tags open at the cut, which alone
    can take it over the budget.  And when every piece is within the budget,
    so is every segment, whatever the budget. *)
Theorem split_segments_contract (x : str) (max_length : Z) :
  (Forall self_contained (re_split_seed x) ->
   Forall (fun seg => validate_telegram_html seg = true)
          (split_html_report x max_length))
  /\ ((50 <= max_length)%Z ->
      Forall (fun seg => within max_length seg
                         \/ cut_and_closed max_length (count_lt x) seg)
             (split_html_report x max_length))
  /\ (Forall (within max_length) (re_split_seed x) ->
      Forall (within max_length) (split_html_report x max_length)).
Proof.
  split; [apply split_segments_valid|].
  split; [apply split_segments_cut|apply split_segments_within].
Qed.

Lemma split_segments_contract_witness :
  (let x := concat (repeat (py "<b>") 40) ++ concat (repeat (py "</b>") 40) in
   Forall (fun seg => validate_telegram_html seg = true) (split_html_report x 100)
   /\ Forall (fun seg => within 100 seg \/ cut_and_closed 100 (count_lt x) seg)
             (split_html_report x 100))
  /\ Forall (within 25)
       (split_html_report (py "intro <b>Seed #1</b> one  <b>Seed #2</b> two") 25).
Proof.
  split.
  - cbv zeta.
    destruct (split_segments_contract
                (concat (repeat (py "<b>") 40) ++ concat (repeat (py "</b>") 40)) 100)
      as (Hvalid & Hcut & _).
    split; [apply Hvalid|apply Hcut; lia].
    assert (E : re_split_seed
                  (concat (repeat (py "<b>") 40) ++ concat (repeat (py "</b>") 40))
                = [concat (repeat (py "<b>") 40) ++ concat (repeat (py "</b>") 40)])
      by (vm_compute; reflexivity).
    rewrite E. constructor; [|constructor].
    split; [vm_compute; reflexivity|]. split; vm_compute; reflexivity.
  - destruct (split_segments_contract
                (py "intro <b>Seed #1</b> one  <b>Seed #2</b> two") 25)
      as (_ & _ & Hwithin).
    apply Hwithin. vm_compute. repeat constructor; discriminate.
Defined.

(** * Escaping totality of the sanitizer *)

Lemma non_ascii_digit_reference_invalid :
  ~ valid_reference [AMP; HASH; 1635%N; SEMI].
Proof.
  intros H. inversion H as [nm Hnm E|ds Hne Hds E|hs Hne Hhs E].
  - change [HASH; 1635%N; SEMI] with ([HASH; 1635%N] ++ [SEMI]) in E.
    apply app_inj_tail in E. destruct E as [-> _].
    cbn in Hnm. intuition discriminate.
  - change [1635%N; SEMI] with ([1635%N] ++ [SEMI]) in E.
    apply app_inj_tail in E. destruct E as [-> _].
    apply Forall_inv in Hds. vm_compute in Hds. discriminate Hds.
Qed.

(** C1 (a defect of the code).  The decimal alternative of the entity
    pattern is written with [\d], which in a [str] pattern is every Unicode
    decimal digit, where the hexadecimal alternative next to it lists its
    ASCII digits.  So [&#] followed by the Arabic-Indic digit three and a
    semicolon is kept as it is, although it is no character reference: its
    [&] is left bare.  The same digit after [&#x] is refused, and that [&] is
    escaped. *)
Theorem sanitize_keeps_non_ascii_digit_reference :
  sanitize_telegram_html [AMP; HASH; 1635%N; SEMI] = [AMP; HASH; 1635%N; SEMI]
  /\ ~ valid_reference [AMP; HASH; 1635%N; SEMI]
  /\ is_decimal 1635 = true /\ is_ascii_digit 1635 = false
  /\ sanitize_telegram_html [AMP; HASH; LOWER_X; 1635%N; SEMI]
     = ESC_AMP ++ [HASH; LOWER_X; 1635%N; SEMI].
Proof.
  split; [vm_compute; reflexivity|].
  split; [exact non_ascii_digit_reference_invalid|].
  repeat split; vm_compute; reflexivity.
Qed.

Lemma recognized_reference_valid e :
  recognized_entity e ->
  Forall (fun c => is_decimal c = true -> is_ascii_digit c = true) e ->
  valid_reference e.
Proof.
  intros [nm Hnm|ds Hne Hds|hs Hne Hhs] Hascii.
  - apply reference_named, Hnm.
  - apply reference_decimal; [exact Hne|].
    apply Forall_inv_tail, Forall_inv_tail in Hascii.
    apply Forall_app in Hascii. destruct Hascii as [Hascii _].
    rewrite List.Forall_forall in *. intros c Hc. apply Hascii; [exact Hc|].
    apply Hds, Hc.
  - apply reference_hex; assumption.
Qed.

Lemma sanitized_piece_valid slice piece :
  sanitized_piece slice piece ->
  Forall (fun c => is_decimal c = true -> is_ascii_digit c = true) slice ->
  valid_piece piece.
Proof.
  intros [t Ht|e He|c H1 H2 H3| | |] Hascii.
  - apply valid_tag, Ht.
  - apply valid_entity, recognized_reference_valid; assumption.
  - apply valid_plain; assumption.
  - apply valid_entity, (reference_named (py "lt")). cbn. auto.
  - apply valid_entity, (reference_named (py "gt")). cbn. auto.
  - apply valid_entity, (reference_named (py "amp")). cbn. auto.
Qed.

Lemma sanitized_pieces_valid ins outs :
  Forall2 sanitized_piece ins outs ->
  Forall (fun c => is_decimal c = true -> is_ascii_digit c = true) (concat ins) ->
  Forall valid_piece outs.
Proof.
  induction 1 as [|slice piece ins outs Hpiece _ IH]; intros Hascii; [constructor|].
  cbn [concat] in Hascii. apply Forall_app in Hascii. destruct Hascii as [Hslice Hrest].
  constructor; [eapply sanitized_piece_valid; eassumption|apply IH, Hrest].
Qed.

(** X20.  Escaping totality away from the defect: for an input in which
    every decimal digit is one of [0-9], the output of
    [sanitize_telegram_html] is made of whitelisted tags, valid character
    references and characters other than [<], [>], [&], slice by slice
    with the input, and a slice that is not copied is a single [<], [>] or
    [&], rendered as its escape. *)
Theorem sanitize_escaping_total_ascii_digits (x : str) :
  ascii_digits_only x = true ->
  exists ins outs : list str,
    x = concat ins
    /\ sanitize_telegram_html x = concat outs
    /\ Forall2 sanitized_piece ins outs
    /\ Forall valid_piece outs.
Proof.
  intros Hascii.
  destruct (sanitize_output_pieces x) as (ins & outs & Hx & Hout & Hpieces & _).
  exists ins, outs. split; [exact Hx|]. split; [exact Hout|]. split; [exact Hpieces|].
  apply (sanitized_pieces_valid ins outs Hpieces). rewrite <- Hx.
  apply List.Forall_forall. intros c Hc.
  unfold ascii_digits_only in Hascii. rewrite forallb_forall in Hascii.
  specialize (Hascii c Hc). intros Hd. rewrite Hd in Hascii. exact Hascii.
Qed.

Lemma sanitize_escaping_total_ascii_digits_witness :
  exists ins outs : list str,
    py "<b>R&D</b> &#38; <x> 2 > 1" = concat ins
    /\ sanitize_telegram_html (py "<b>R&D</b> &#38; <x> 2 > 1") = concat outs
    /\ Forall2 sanitized_piece ins outs
    /\ Forall valid_piece outs.
Proof. apply sanitize_escaping_total_ascii_digits. vm_compute. reflexivity. Defined.
